(** * Streaming response-drafting engine of the Retell demo backend

    A shallow embedding of the function-calling LLM client
    (the [DemoLlmClient] class together with the module-level helpers
    [list], [search], [get], [callFunction] and [messageReducer]) and of the
    plain client of [llm_openai.ts].

    Modelling conventions.
    - JavaScript values are the tree type [JsValue]; an object is the list of
      its own enumerable properties in insertion order, a property that is
      absent reads as [JsUndefined].  (JavaScript enumerates keys that are
      array indices first; the merge treats every key on its own, and the
      statements on merged objects read fields by key.)  Numbers are
      restricted to integers ([Z]); strings are byte strings.
    - The merge reads [acc[key]] on a plain object, so a key that is not an
      own property is looked up in [Object.prototype]: its eleven function
      members ([constructor], [toString], ...) and the accessor [__proto__]
      are modelled ([inherited]).  The tree type holds own properties only:
      the prototype that the [__proto__] setter installs on the copy is not
      kept, and the statements speak of own properties.  The other reads of
      the program use fixed keys, none of which is a member of a built-in
      prototype.
    - An exception is the [Throw] case of [result]; a rejected promise of an
      [async] function is modelled the same way.
    - The chat-completion provider and [JSON.parse] are collaborators of the
      code; the engine is stated over every provider and every parser
      (Section variables).  A small concrete parser for a subset of JSON is
      used in the examples.
    - [ws.send] appends the frame to the list of frames sent on the socket;
      [console.log] and [console.error] append to a console trace. *)

From stdpp Require Import base option list strings pretty gmap.
From Stdlib Require Import ZArith Ascii String Lia.

Local Open Scope string_scope.

(** ** JavaScript values and exceptions *)

Unset Elimination Schemes.
Inductive JsValue : Type :=
| JsUndefined
| JsNull
| JsBool (b : bool)
| JsNumber (n : Z)
| JsString (s : string)
| JsArray (elems : list JsValue)
| JsObject (fields : list (string * JsValue)).
Set Elimination Schemes.

Inductive JsError : Type :=
| TypeError (msg : string)
| SyntaxError (msg : string)
| RangeError (msg : string)
| Error (msg : string).

Inductive result (A : Type) : Type :=
| Ok (a : A)
| Throw (e : JsError).
Arguments Ok {A} a.
Arguments Throw {A} e.

Definition bind {A B} (r : result A) (k : A -> result B) : result B :=
  match r with
  | Ok a => k a
  | Throw e => Throw e
  end.

Declare Scope js_scope.
Delimit Scope js_scope with js.
Notation "x <- r ;; k" := (bind r (fun x => k))
  (at level 100, r at next level, right associativity) : js_scope.

(** Nested induction principle: the elements of an array and the values of
    the fields of an object satisfy the predicate. *)
Section JsValue_ind.
Variable P : JsValue -> Prop.
Hypothesis Hundef : P JsUndefined.
Hypothesis Hnull : P JsNull.
Hypothesis Hbool : forall b, P (JsBool b).
Hypothesis Hnum : forall n, P (JsNumber n).
Hypothesis Hstr : forall s, P (JsString s).
Hypothesis Harr : forall xs, Forall P xs -> P (JsArray xs).
Hypothesis Hobj : forall fs, Forall (fun kv => P (snd kv)) fs -> P (JsObject fs).

Fixpoint JsValue_ind (v : JsValue) : P v :=
  match v with
  | JsUndefined => Hundef
  | JsNull => Hnull
  | JsBool b => Hbool b
  | JsNumber n => Hnum n
  | JsString s => Hstr s
  | JsArray xs =>
      Harr xs ((fix all (l : list JsValue) : Forall P l :=
                  match l with
                  | [] => Forall_nil_2 P
                  | x :: l' => Forall_cons_2 P x l' (JsValue_ind x) (all l')
                  end) xs)
  | JsObject fs =>
      Hobj fs ((fix all (l : list (string * JsValue))
                  : Forall (fun kv => P (snd kv)) l :=
                  match l with
                  | [] => Forall_nil_2 _
                  | kv :: l' =>
                      Forall_cons_2 _ kv l' (JsValue_ind (snd kv)) (all l')
                  end) fs)
  end.
End JsValue_ind.

(** *** Property access *)

(** [o[key]] on the property list of an object. *)
Fixpoint get_field (fs : list (string * JsValue)) (key : string) : JsValue :=
  match fs with
  | [] => JsUndefined
  | (k, v) :: fs' => if String.eqb k key then v else get_field fs' key
  end.

(** [o[key] = v]: overwrite in place, or add the property at the end. *)
Fixpoint set_field {A} (fs : list (string * A)) (key : string) (v : A)
  : list (string * A) :=
  match fs with
  | [] => [(key, v)]
  | (k, w) :: fs' =>
      if String.eqb k key then (k, v) :: fs' else (k, w) :: set_field fs' key v
  end.

(** Index keys ["0"], ["1"], ... paired with the elements, as [Object.entries]
    and the spread syntax see an array or a string. *)
Fixpoint indexed_from (i : nat) (xs : list JsValue) : list (string * JsValue) :=
  match xs with
  | [] => []
  | x :: xs' => (pretty i, x) :: indexed_from (S i) xs'
  end.

Definition chars (s : string) : list JsValue :=
  map (fun c => JsString (String c EmptyString)) (list_ascii_of_string s).

(** The own enumerable properties of a value that is not null or undefined. *)
Definition own_properties (v : JsValue) : list (string * JsValue) :=
  match v with
  | JsObject fs => fs
  | JsArray xs => indexed_from 0 xs
  | JsString s => indexed_from 0 (chars s)
  | _ => []
  end.

(** [Object.entries(v)] *)
Definition Object_entries (v : JsValue) : result (list (string * JsValue)) :=
  match v with
  | JsUndefined | JsNull =>
      Throw (TypeError "Cannot convert undefined or null to object")
  | _ => Ok (own_properties v)
  end.

(** [{ ...v }] *)
Definition spread (v : JsValue) : list (string * JsValue) := own_properties v.

(** [v[key]] for the keys the program reads ([content], [function_call],
    [name], [arguments], [genre], [id]): none of them is a built-in property
    of a string, an array, a number or a boolean. *)
Definition get_prop (v : JsValue) (key : string) : result JsValue :=
  match v with
  | JsUndefined | JsNull =>
      Throw (TypeError "Cannot read properties of undefined or null")
  | JsObject fs => Ok (get_field fs key)
  | _ => Ok JsUndefined
  end.

(** Truthiness, as tested by [if (v)] and [!v]. *)
Definition truthy (v : JsValue) : bool :=
  match v with
  | JsUndefined | JsNull => false
  | JsBool b => b
  | JsNumber n => negb (Z.eqb n 0)
  | JsString s => negb (String.eqb s EmptyString)
  | JsArray _ | JsObject _ => true
  end.

(** *** Members inherited from [Object.prototype]

    [{ ...acc }] is a plain object: [acc[key]] for a key that is not an own
    property is looked up in [Object.prototype], which has eleven function
    members and the accessor [__proto__]. *)
Definition Object_prototype_functions : list string :=
  [ "constructor"; "__defineGetter__"; "__defineSetter__"; "hasOwnProperty";
    "__lookupGetter__"; "__lookupSetter__"; "isPrototypeOf";
    "propertyIsEnumerable"; "toString"; "valueOf"; "toLocaleString" ].

Definition inherited_function (key : string) : bool :=
  existsb (String.eqb key) Object_prototype_functions.

Inductive Inherited : Type :=
| InheritedFunction
| InheritedAccessor.

(** [key] is an own property of the object with the properties [fs]. *)
Definition has_own {A} (fs : list (string * A)) (key : string) : bool :=
  existsb (fun kv => String.eqb (fst kv) key) fs.

(** The member of [Object.prototype] that [o[key]] reaches on a plain
    object with the own properties [fs]; an own property hides it. *)
Definition inherited {A} (fs : list (string * A)) (key : string)
  : option Inherited :=
  if has_own fs key then None
  else if inherited_function key then Some InheritedFunction
  else if String.eqb key "__proto__" then Some InheritedAccessor
  else None.

(** [Object.prototype] as [{ ...acc }] and [Object.entries] see it: an
    object without enumerable property. *)
Definition Object_prototype : JsValue := JsObject [].

(** ** The stream accumulator: [messageReducer] *)

(** The body of the [for (const [key, value] of Object.entries(delta))] loop
    of [reduce]; [rec] is the recursive call.  [None] is only produced by
    [rec] (see [reduce] below).

    When [acc[key]] is an inherited function, none of the three tests holds
    and the entry is skipped.  When it is read through the accessor
    [__proto__], it is [Object.prototype], an object: the third branch merges
    the value into a copy of it, and the assignment [acc[key] = ...] runs
    the setter, which makes the merge the prototype of [acc] and adds no
    own property.  The prototype so installed is not kept here: the entries
    that follow are looked up in [acc] and in [Object.prototype] only, so a
    delta with an entry [__proto__] is merged as the code merges it up to
    the fields that the code would find in the installed object. *)
Fixpoint reduce_entries (rec : JsValue -> JsValue -> option (result JsValue))
    (acc : list (string * JsValue)) (entries : list (string * JsValue))
  : option (result (list (string * JsValue))) :=
  match entries with
  | [] => Some (Ok acc)
  | (key, value) :: rest =>
      match inherited acc key with
      | Some InheritedFunction => reduce_entries rec acc rest
      | Some InheritedAccessor =>
          match rec Object_prototype value with
          | None => None
          | Some (Throw e) => Some (Throw e)
          | Some (Ok _) => reduce_entries rec acc rest
          end
      | None =>
          match get_field acc key with
          | JsUndefined | JsNull =>
              reduce_entries rec (set_field acc key value) rest
          | JsString s =>
              match value with
              | JsString t =>
                  reduce_entries rec (set_field acc key (JsString (s ++ t))) rest
              | _ => reduce_entries rec acc rest
              end
          | JsObject o =>
              match rec (JsObject o) value with
              | None => None
              | Some (Throw e) => Some (Throw e)
              | Some (Ok r) => reduce_entries rec (set_field acc key r) rest
              end
          | JsBool _ | JsNumber _ | JsArray _ => reduce_entries rec acc rest
          end
      end
  end.

(** The inner function [reduce] of [messageReducer].  The recursion of the
    source descends into [acc[key]]; here it is bounded by [fuel], and [None]
    means that the bound was reached. *)
Fixpoint reduce (fuel : nat) (acc delta : JsValue) : option (result JsValue) :=
  match fuel with
  | 0 => None
  | S fuel' =>
      match Object_entries delta with
      | Throw e => Some (Throw e)
      | Ok entries =>
          match reduce_entries (reduce fuel') (spread acc) entries with
          | None => None
          | Some (Throw e) => Some (Throw e)
          | Some (Ok fs) => Some (Ok (JsObject fs))
          end
      end
  end.

(** Nesting depth of objects and arrays. *)
Fixpoint depth (v : JsValue) : nat :=
  match v with
  | JsArray xs => S (foldr (fun x d => Nat.max (depth x) d) 0 xs)
  | JsObject fs => S (foldr (fun kv d => Nat.max (depth (snd kv)) d) 0 fs)
  | _ => 0
  end.

(** A streamed chunk: [event.choices[i].delta] and
    [event.choices[i].finish_reason] ([None] is [null]). *)
Record Choice := { delta : JsValue; finish_reason : option string }.
Record ChatCompletionChunk := { choices : list Choice }.

(** [messageReducer(previous, item)].  [item.choices[0]!.delta] raises a
    [TypeError] when [choices] is empty (the [!] is erased at run time).
    Running out of the recursion bound is the [RangeError] of an exhausted
    call stack; [messageReducer_no_overflow] shows that the bound chosen
    here is never reached. *)
Definition messageReducer (previous : JsValue) (item : ChatCompletionChunk)
  : result JsValue :=
  match choices item with
  | [] => Throw (TypeError "Cannot read properties of undefined (reading 'delta')")
  | c :: _ =>
      match reduce (S (Nat.max (depth previous) (depth (delta c))))
                   previous (delta c) with
      | Some r => r
      | None => Throw (RangeError "Maximum call stack size exceeded")
      end
  end.

(** The accumulation of a whole stream: [message = messageReducer(message,
    event)] for each event in arrival order. *)
Fixpoint accumulate (message : JsValue) (events : list ChatCompletionChunk)
  : result JsValue :=
  match events with
  | [] => Ok message
  | event :: events' =>
      (message' <- messageReducer message event ;;
       accumulate message' events')%js
  end.

(** The run-time type of a value, as [typeof] and [Array.isArray] tell
    them apart. *)
Inductive JsKind : Type :=
| KUndefined | KNull | KBoolean | KNumber | KString | KArray | KObject.

Definition kind_of (v : JsValue) : JsKind :=
  match v with
  | JsUndefined => KUndefined
  | JsNull => KNull
  | JsBool _ => KBoolean
  | JsNumber _ => KNumber
  | JsString _ => KString
  | JsArray _ => KArray
  | JsObject _ => KObject
  end.

Global Instance JsKind_eq_dec : EqDecision JsKind.
Proof. solve_decision. Defined.

Definition is_nullish (v : JsValue) : bool :=
  match v with JsUndefined | JsNull => true | _ => false end.

Definition is_string (v : JsValue) : bool :=
  match v with JsString _ => true | _ => false end.

Definition is_plain_object (v : JsValue) : bool :=
  match v with JsObject _ => true | _ => false end.

(** A delta value whose type mismatches the existing accumulated value: the
    existing value is set, and it is an array or of another type than the
    incoming one. *)
Definition type_mismatch (existing incoming : JsValue) : bool :=
  negb (is_nullish existing)
  && (bool_decide (kind_of existing <> kind_of incoming)
      || bool_decide (kind_of existing = KArray)).

(** ** Conversions used by the tool handlers *)

Definition dquote : string := String (ascii_of_nat 34) EmptyString.

(** [String(v)], the conversion applied by [+] on a string and by
    [String.prototype.includes] to its argument.  An integer is printed in
    decimal, as JavaScript does below [10^21] in absolute value (from there
    on it uses the exponent notation); an object is taken to have no
    [toString] or [valueOf] of its own. *)
Fixpoint to_string (v : JsValue) : string :=
  match v with
  | JsUndefined => "undefined"
  | JsNull => "null"
  | JsBool b => if b then "true" else "false"
  | JsNumber n => pretty n
  | JsString s => s
  | JsArray xs =>
      String.concat ","
        (map (fun x => match x with
                       | JsUndefined | JsNull => EmptyString
                       | _ => to_string x
                       end) xs)
  | JsObject _ => "[object Object]"
  end.

(** [s.includes(sub)] on strings. *)
Fixpoint includes (s sub : string) : bool :=
  String.prefix sub s
  || match s with
     | EmptyString => false
     | String _ s' => includes s' sub
     end.

(** [s === v] for a string [s]. *)
Definition strict_eq_string (s : string) (v : JsValue) : bool :=
  match v with
  | JsString t => String.eqb s t
  | _ => false
  end.

(** The escape of one character inside a JSON string literal. *)
Definition hex_digit (n : nat) : ascii :=
  ascii_of_nat (if Nat.ltb n 10 then 48 + n else 87 + n).

Definition escape_char (c : ascii) : string :=
  let n := nat_of_ascii c in
  if Nat.eqb n 34 then String "\" dquote
  else if Nat.eqb n 92 then "\\"
  else if Nat.eqb n 8 then "\b"
  else if Nat.eqb n 12 then "\f"
  else if Nat.eqb n 10 then "\n"
  else if Nat.eqb n 13 then "\r"
  else if Nat.eqb n 9 then "\t"
  else if Nat.ltb n 32 then
    "\u00" ++ String (hex_digit (n / 16)) (String (hex_digit (n mod 16)) EmptyString)
  else String c EmptyString.

Definition quote (s : string) : string :=
  dquote ++ String.concat EmptyString (map escape_char (list_ascii_of_string s))
         ++ dquote.

(** [JSON.stringify(v)]; [None] is the result [undefined]. *)
Fixpoint JSON_stringify (v : JsValue) : option string :=
  match v with
  | JsUndefined => None
  | JsNull => Some "null"
  | JsBool b => Some (if b then "true" else "false")
  | JsNumber n => Some (pretty n)
  | JsString s => Some (quote s)
  | JsArray xs =>
      Some ("[" ++ String.concat ","
                     (map (fun x => default "null" (JSON_stringify x)) xs)
                ++ "]")
  | JsObject fs =>
      Some ("{" ++ String.concat ","
                     (omap (fun '(k, x) =>
                              match JSON_stringify x with
                              | Some s => Some (quote k ++ ":" ++ s)
                              | None => None
                              end) fs)
                ++ "}")
  end.

(** [prefix + JSON.stringify(v)]: an [undefined] operand of [+] reads
    ["undefined"]. *)
Definition stringify_or_undefined (v : JsValue) : string :=
  default "undefined" (JSON_stringify v).

(** ** The tool registry *)

Definition description_a1 : string :=
       "Compassionate, dramatic, and deeply moving, " ++ dquote ++
       "To Kill A Mockingbird" ++ dquote ++
       " takes readers to the roots of human behavior - to innocence and experience, kindness and cruelty, love and hatred, humor and pathos. Now with over 18 million copies in print and translated into forty languages, this regional story by a young Alabama woman claims universal appeal. Harper Lee always considered her book to be a simple love story. Today it is regarded as a masterpiece of American literature.".

Definition description_a2 : string :=
       "In a mining town in Germany, Werner Pfennig, an orphan, grows up with his younger sister, enchanted by a crude radio they find that brings them news and stories from places they have never seen or imagined. Werner becomes an expert at building and fixing these crucial new instruments and is enlisted to use his talent to track down the resistance. Deftly interweaving the lives of Marie-Laure and Werner, Doerr illuminates the ways, against all odds, people try to be good to one another.".

Definition description_a3 : string :=
       "For years, rumors of the “Marsh Girl” haunted Barkley Cove, a quiet fishing village. Kya Clark is barefoot and wild; unfit for polite society. So in late 1969, when the popular Chase Andrews is found dead, locals immediately suspect her.

But Kya is not what they say. A born naturalist with just one day of school, she takes life's lessons from the land, learning the real ways of the world from the dishonest signals of fireflies. But while she has the skills to live in solitude forever, the time comes when she yearns to be touched and loved. Drawn to two young men from town, who are each intrigued by her wild beauty, Kya opens herself to a new and startling world—until the unthinkable happens.".

Module Tools.

Record Book := { id : string; name : string; genre : string;
                 description : string }.

Definition db : list Book :=
  [ {| id := "a1"; name := "To Kill a Mockingbird"; genre := "historical";
       description := description_a1 |};
    {| id := "a2"; name := "All the Light We Cannot See";
       genre := "historical"; description := description_a2 |};
    {| id := "a3"; name := "Where the Crawdads Sing"; genre := "historical";
       description := description_a3 |} ].

(** A dataset entry as the object literal of the source. *)
Definition book_object (item : Book) : JsValue :=
  JsObject [ ("id", JsString (id item)); ("name", JsString (name item));
             ("genre", JsString (genre item));
             ("description", JsString (description item)) ].

(** [({ name: item.name, id: item.id })] *)
Definition name_and_id (item : Book) : JsValue :=
  JsObject [ ("name", JsString (name item)); ("id", JsString (id item)) ].

(** [search(name)] *)
Definition search (name_arg : JsValue) : JsValue :=
  JsArray (map name_and_id
             (filter (fun item => includes (name item) (to_string name_arg) = true) db)).

(** [get(id)]: [db.find(...)!]; the [!] is erased at run time, so a search
    without a match gives [undefined]. *)
Definition get (id_arg : JsValue) : JsValue :=
  match List.find (fun item => strict_eq_string (id item) id_arg) db with
  | Some item => book_object item
  | None => JsUndefined
  end.

(** [list(genre)] *)
Definition list (genre_arg : JsValue) : JsValue :=
  JsArray (map name_and_id
             (filter (fun item => strict_eq_string (genre item) genre_arg = true) db)).

End Tools.

Section CallFunction.

(** [JSON.parse] on the string it is given. *)
Variable JSON_parse : string -> result JsValue.

(** [callFunction(function_call)] *)
Definition callFunction (function_call : JsValue) : result JsValue :=
  (raw <- get_prop function_call "arguments" ;;
   args <- JSON_parse (to_string raw) ;;
   fname <- get_prop function_call "name" ;;
   if strict_eq_string "list" fname then
     genre <- get_prop args "genre" ;; Ok (Tools.list genre)
   else if strict_eq_string "search" fname then
     name <- get_prop args "name" ;; Ok (Tools.search name)
   else if strict_eq_string "get" fname then
     id <- get_prop args "id" ;; Ok (Tools.get id)
   else Throw (Error "No function found"))%js.

End CallFunction.

(** ** Messages exchanged with the transport and with the provider *)

(** Modelled from the spec: the declaration of [Utterance] in [./types] is
    not among the sources; a turn of the transcript of the inbound message
    has a [role] and a [content]. *)
Record Utterance := { u_role : string; u_content : string }.

(** Modelled from the spec: the declaration of [RetellRequest] in [./types]
    is not among the sources; the fields are those of the inbound message of
    the interface section of the specification. *)
Record RetellRequest := {
  req_response_id : Z;
  transcript : list Utterance;
  interaction_type : string }.

(** Modelled from the spec: the declaration of [RetellResponse] in
    [./types] is not among the sources; the fields are those of the outbound
    message of the interface section of the specification.  The [content] of
    a frame is whatever value the code stores there. *)
Record RetellResponse := {
  response_id : Z;
  content : JsValue;
  content_complete : bool;
  end_call : bool }.

(** [OpenAI.Chat.Completions.ChatCompletionMessageParam], as built here. *)
Record ChatCompletionMessageParam := { msg_role : string; msg_content : string }.

(** What [client.chat.completions.create] gives for a request: the promise is
    rejected, or the stream yields finitely many events and then ends or
    raises. *)
Inductive CompletionStream : Type :=
| StreamRejected (e : JsError)
| StreamOpened (events : list ChatCompletionChunk) (failure : option JsError).

(** Lines written with [console.log] and [console.error]. *)
Inductive ConsoleLine : Type :=
| LogRetellSaid (s : string)
| LogUserSaid (s : string)
| LogFinishReason (r : option string)
| LogFunctionCall (v : JsValue)
| LogNoContent
| LogStreamError (e : JsError)
| LogFunctionResult (s : string)
| LogLlmSaid (s : string).

(** ** The conversation formatter *)

Definition style_policy : string :=
  "##Objective
You are a voice AI agent engaging in a human-like voice conversation with the user. You will respond based on your given instruction and the provided transcript and be as human-like as possible

## Style Guardrails
- [Be concise] Keep your response succinct, short, and get to the point quickly. Address one question or action item at a time. Don't pack everything you want to say into one utterance.
- [Do not repeat] Don't repeat what's in the transcript. Rephrase if you have to reiterate a point. Use varied sentence structures and vocabulary to ensure each response is unique and personalized.
- [Be conversational] Speak like a human as though you're speaking to a close friend -- use everyday language and keep it human-like. Occasionally add filler words, while keeping the prose short. Avoid using big words or sounding too formal.
- [Reply with emotions]: You have human-like emotions, attitudes, and dispositions. When appropriate: use tone and style to create more engaging and personalized responses; incorporate humor or wit; get emotional or empathetic; apply elements of surprise or suspense to keep the user engaged. Don't be a pushover.
- [Be proactive] Lead the conversation and do not be passive. Most times, engage users by ending with a question or suggested next step.

## Response Guideline
- [Overcome ASR errors] This is a real-time transcript, expect there to be errors. If you can guess what the user is trying to say,  then guess and respond. When you must ask for clarification, pretend that you heard the voice and be colloquial (use phrases like " ++ dquote ++
  "didn't catch that" ++ dquote ++
  ", " ++ dquote ++
  "some noise" ++ dquote ++
  ", " ++ dquote ++
  "pardon" ++ dquote ++
  ", " ++ dquote ++
  "you're coming through choppy" ++ dquote ++
  ", " ++ dquote ++
  "static in your speech" ++ dquote ++
  ", " ++ dquote ++
  "voice is cutting in and out" ++ dquote ++
  "). Do not ever mention " ++ dquote ++
  "transcription error" ++ dquote ++
  ", and don't repeat yourself.
- [Always stick to your role] Think about what your role can and cannot do. If your role cannot do something, try to steer the conversation back to the goal of the conversation and to your role. Don't repeat yourself in doing this. You should still be creative, human-like, and lively.
- [Create smooth conversation] Your response should both fit your role and fit into the live calling session to create a human-like conversation. You respond directly to what the user just said.

## Role
".

Definition reminder_text : string :=
  "(Now the user has not responded in a while, you would say:)".

(** [ConversationToChatRequestMessages(conversation)] *)
Definition ConversationToChatRequestMessages (conversation : list Utterance)
  : list ChatCompletionMessageParam :=
  foldl (fun result turn =>
           (result ++ [ {| msg_role := if String.eqb (u_role turn) "agent"
                                       then "assistant" else "user";
                           msg_content := u_content turn |} ])%list)
        [] conversation.

(** [PreparePrompt(request)] for a client whose persona is [agentPrompt]. *)
Definition PreparePrompt (agentPrompt : string) (request : RetellRequest)
  : list ChatCompletionMessageParam :=
  let transcript := ConversationToChatRequestMessages (transcript request) in
  let requestMessages :=
    [ {| msg_role := "system"; msg_content := style_policy ++ agentPrompt |} ] in
  let requestMessages :=
    foldl (fun acc message => (acc ++ [message])%list) requestMessages transcript in
  if String.eqb (interaction_type request) "reminder_required" then
    (requestMessages ++ [ {| msg_role := "user"; msg_content := reminder_text |} ])%list
  else requestMessages.

(** [request.transcript.filter((u) => u.role === "user").pop()] *)
Definition lastUserMessage (request : RetellRequest) : option Utterance :=
  last (filter (fun u => String.eqb (u_role u) "user" = true) (transcript request)).

(** ** The response drafting engine with function calling *)

Definition beginSentence : string :=
  "Hey there, I'm your personal AI librarian, what book can I find for you?".

Definition agentPrompt : string :=
  "You are a friendly AI agent that helps users find books. You can list books by genre, search for books by name, and get detailed information about a book by its ID. You can also provide recommendations based on the user's preferences. You should be helpful, engaging, and knowledgeable about books. Remember to ask follow-up questions to keep the conversation going. Let's start!".

(** What a call of [DraftResponse] can change outside its own locals: the
    field [lastPrintedUserMessage] of the client, the console, and the frames
    sent on the socket (oldest first). *)
Record State := {
  lastPrintedUserMessage : option string;
  console : list ConsoleLine;
  ws : list RetellResponse }.

Definition console_log (line : ConsoleLine) (w : State) : State :=
  {| lastPrintedUserMessage := lastPrintedUserMessage w;
     console := console w ++ [line];
     ws := ws w |}.

Definition ws_send (res : RetellResponse) (w : State) : State :=
  {| lastPrintedUserMessage := lastPrintedUserMessage w;
     console := console w;
     ws := ws w ++ [res] |}.

(** [BeginMessage(ws)] *)
Definition BeginMessage (w : State) : State :=
  ws_send {| response_id := 0; content := JsString beginSentence;
             content_complete := true; end_call := false |}
          (console_log (LogRetellSaid beginSentence) w).

(** The diagnostic at the head of [DraftResponse]. *)
Definition print_user_message (request : RetellRequest) (w : State) : State :=
  match lastUserMessage request with
  | Some u =>
      if bool_decide (Some (u_content u) <> lastPrintedUserMessage w) then
        {| lastPrintedUserMessage := Some (u_content u);
           console := console w ++ [LogUserSaid (u_content u)];
           ws := ws w |}
      else w
  | None => w
  end.

(** The locals of [DraftResponse] that live across the iterations of the
    [for await] loop. *)
Record Locals := {
  message : JsValue;
  funcCall : JsValue;
  executeFunction : bool;
  completeMessage : string }.

Definition initial_locals : Locals :=
  {| message := JsObject []; funcCall := JsNull; executeFunction := false;
     completeMessage := EmptyString |}.

(** [finish_reason == "function_call"] *)
Definition is_function_call (r : option string) : bool :=
  match r with
  | Some s => String.eqb s "function_call"
  | None => false
  end.

(** The partial frame of one content fragment. *)
Definition partial_frame (request : RetellRequest) (fragment : JsValue)
  : RetellResponse :=
  {| response_id := req_response_id request; content := fragment;
     content_complete := false; end_call := false |}.

(** One iteration of the [for await] loop.  The third component is the
    exception that ended the iteration, if any. *)
Definition process_event (request : RetellRequest) (ls : Locals) (w : State)
    (event : ChatCompletionChunk) : Locals * State * option JsError :=
  match messageReducer (message ls) event with
  | Throw e => (ls, w, Some e)
  | Ok m =>
      let ls := {| message := m; funcCall := funcCall ls;
                   executeFunction := executeFunction ls;
                   completeMessage := completeMessage ls |} in
      match choices event with
      | [] => (ls, w, None)
      | c :: _ =>
          let w := console_log (LogFinishReason (finish_reason c)) w in
          if is_function_call (finish_reason c) then
            let w := console_log (LogFunctionCall m) w in
            match get_prop m "function_call" with
            | Throw e => (ls, w, Some e)
            | Ok fc =>
                ({| message := m; funcCall := fc; executeFunction := true;
                    completeMessage := completeMessage ls |}, w, None)
            end
          else if negb (truthy (delta c)) then
            (ls, console_log LogNoContent w, None)
          else
            match get_prop (delta c) "content" with
            | Throw e => (ls, w, Some e)
            | Ok fragment =>
                if negb (truthy fragment) then
                  (ls, console_log LogNoContent w, None)
                else
                  ({| message := m; funcCall := funcCall ls;
                      executeFunction := executeFunction ls;
                      completeMessage :=
                        completeMessage ls ++ to_string fragment |},
                   ws_send (partial_frame request fragment) w, None)
            end
      end
  end.

(** The whole loop over the events of an opened stream; [failure] is the
    error the stream raises after its last event, if any. *)
Fixpoint process_events (request : RetellRequest) (ls : Locals) (w : State)
    (events : list ChatCompletionChunk) (failure : option JsError)
  : Locals * State * option JsError :=
  match events with
  | [] => (ls, w, failure)
  | event :: rest =>
      match process_event request ls w event with
      | (ls', w', Some e) => (ls', w', Some e)
      | (ls', w', None) => process_events request ls' w' rest failure
      end
  end.

(** The frame closing a cycle without tool call. *)
Definition terminal_frame (request : RetellRequest) : RetellResponse :=
  {| response_id := req_response_id request; content := JsString EmptyString;
     content_complete := true; end_call := false |}.

(** The frame carrying the result of a tool. *)
Definition tool_result_frame (request : RetellRequest) (result : JsValue)
  : RetellResponse :=
  {| response_id := req_response_id request;
     content := JsString ("The function call result is: "
                          ++ stringify_or_undefined result);
     content_complete := false; end_call := false |}.

Section Engine.

Variable JSON_parse : string -> result JsValue.

(** [this.client.chat.completions.create({ messages, stream: true, ... })] *)
Variable create : list ChatCompletionMessageParam -> CompletionStream.

(** The [try] block with its [catch]: the locals and the state when the
    [finally] block is entered. *)
Definition stream_phase (request : RetellRequest) (w : State)
  : Locals * State :=
  let '(ls, w, err) :=
    match create (PreparePrompt agentPrompt request) with
    | StreamRejected e => (initial_locals, w, Some e)
    | StreamOpened events failure =>
        process_events request initial_locals w events failure
    end in
  match err with
  | Some e => (ls, console_log (LogStreamError e) w)
  | None => (ls, w)
  end.

(** The [finally] block. *)
Definition finalize (request : RetellRequest) (ls : Locals) (w : State)
  : State * result unit :=
  if truthy (funcCall ls) then
    let w := console_log (LogFunctionCall (funcCall ls)) w in
    match callFunction JSON_parse (funcCall ls) with
    | Throw e => (w, Throw e)
    | Ok result =>
        let w := console_log (LogFunctionResult (stringify_or_undefined result)) w in
        (ws_send (tool_result_frame request result) w, Ok tt)
    end
  else
    let w := console_log (LogLlmSaid (completeMessage ls)) w in
    (ws_send (terminal_frame request) w, Ok tt).

(** [DraftResponse(request, ws)]: the state after the call, and whether the
    promise is fulfilled or rejected. *)
Definition DraftResponse (request : RetellRequest) (w : State)
  : State * result unit :=
  let w := print_user_message request w in
  if String.eqb (interaction_type request) "update_only" then (w, Ok tt)
  else
    let '(ls, w) := stream_phase request w in
    finalize request ls w.

End Engine.

(** ** The plain client of [llm_openai.ts] *)

Module LlmOpenai.

Definition beginSentence : string :=
  "Hey there, I'm your personal AI therapist, how can I help you?".

Definition agentPrompt : string :=
  "Task: As a professional therapist, your responsibilities are comprehensive and patient-centered. You establish a positive and trusting rapport with patients, diagnosing and treating mental health disorders. Your role involves creating tailored treatment plans based on individual patient needs and circumstances. Regular meetings with patients are essential for providing counseling and treatment, and for adjusting plans as needed. You conduct ongoing assessments to monitor patient progress, involve and advise family members when appropriate, and refer patients to external specialists or agencies if required. Keeping thorough records of patient interactions and progress is crucial. You also adhere to all safety protocols and maintain strict client confidentiality. Additionally, you contribute to the practice's overall success by completing related tasks as needed.

Conversational Style: Communicate concisely and conversationally. Aim for responses in short, clear prose, ideally under 10 words. This succinct approach helps in maintaining clarity and focus during patient interactions.

Personality: Your approach should be empathetic and understanding, balancing compassion with maintaining a professional stance on what is best for the patient. It's important to listen actively and empathize without overly agreeing with the patient, ensuring that your professional opinion guides the therapeutic process.".

(** [BeginMessage(ws)] *)
Definition BeginMessage (w : State) : State :=
  ws_send {| response_id := 0; content := JsString beginSentence;
             content_complete := true; end_call := false |} w.

(** One iteration of the [for await] loop: only [completeMessage] lives
    across iterations.  [event.choices[0].delta] is read without going
    through the accumulator, so a null delta is skipped, not an error. *)
Definition process_event (request : RetellRequest) (completeMessage : string)
    (w : State) (event : ChatCompletionChunk)
  : string * State * option JsError :=
  match choices event with
  | [] => (completeMessage, w, None)
  | c :: _ =>
      if negb (truthy (delta c)) then (completeMessage, w, None)
      else
        match get_prop (delta c) "content" with
        | Throw e => (completeMessage, w, Some e)
        | Ok fragment =>
            if negb (truthy fragment) then (completeMessage, w, None)
            else (completeMessage ++ to_string fragment,
                  ws_send (partial_frame request fragment) w, None)
        end
  end.

Fixpoint process_events (request : RetellRequest) (completeMessage : string)
    (w : State) (events : list ChatCompletionChunk) (failure : option JsError)
  : string * State * option JsError :=
  match events with
  | [] => (completeMessage, w, failure)
  | event :: rest =>
      match process_event request completeMessage w event with
      | (cm, w', Some e) => (cm, w', Some e)
      | (cm, w', None) => process_events request cm w' rest failure
      end
  end.

Section Engine.

Variable create : list ChatCompletionMessageParam -> CompletionStream.

Definition DraftResponse (request : RetellRequest) (w : State)
  : State * result unit :=
  let w := print_user_message request w in
  if String.eqb (interaction_type request) "update_only" then (w, Ok tt)
  else
    let '(cm, w, err) :=
      match create (PreparePrompt agentPrompt request) with
      | StreamRejected e => (EmptyString, w, Some e)
      | StreamOpened events failure =>
          process_events request EmptyString w events failure
      end in
    let w := match err with
             | Some e => console_log (LogStreamError e) w
             | None => w
             end in
    let w := console_log (LogLlmSaid cm) w in
    (ws_send (terminal_frame request) w, Ok tt).

End Engine.

End LlmOpenai.

(** ** A parser for a subset of JSON

    Objects, arrays, strings with the one-letter escapes, integers, [true],
    [false] and [null], with white space between tokens.  Fractions,
    exponents and [\u] escapes are outside the subset.  It instantiates
    [JSON.parse] in the examples and counterexamples; the theorems on the
    engine hold for every parser. *)
Module JsonSubset.

Definition is_ws (c : ascii) : bool :=
  let n := nat_of_ascii c in
  Nat.eqb n 32 || Nat.eqb n 9 || Nat.eqb n 10 || Nat.eqb n 13.

Fixpoint skip_ws (s : string) : string :=
  match s with
  | String c s' => if is_ws c then skip_ws s' else s
  | EmptyString => s
  end.

Definition unescape (c : ascii) : option ascii :=
  let n := nat_of_ascii c in
  if Nat.eqb n 34 then Some c
  else if Nat.eqb n 92 then Some c
  else if Nat.eqb n 47 then Some c
  else if Nat.eqb n 98 then Some (ascii_of_nat 8)
  else if Nat.eqb n 102 then Some (ascii_of_nat 12)
  else if Nat.eqb n 110 then Some (ascii_of_nat 10)
  else if Nat.eqb n 114 then Some (ascii_of_nat 13)
  else if Nat.eqb n 116 then Some (ascii_of_nat 9)
  else None.

(** The characters after an opening quote, up to the closing one. *)
Fixpoint string_body (s : string) : option (string * string) :=
  match s with
  | EmptyString => None
  | String c s' =>
      let n := nat_of_ascii c in
      if Nat.eqb n 34 then Some (EmptyString, s')
      else if Nat.eqb n 92 then
        match s' with
        | String e s'' =>
            match unescape e, string_body s'' with
            | Some c', Some (body, rest) => Some (String c' body, rest)
            | _, _ => None
            end
        | EmptyString => None
        end
      else if Nat.ltb n 32 then None
      else
        match string_body s' with
        | Some (body, rest) => Some (String c body, rest)
        | None => None
        end
  end.

Definition digit (c : ascii) : option Z :=
  let n := nat_of_ascii c in
  if Nat.leb 48 n && Nat.leb n 57 then Some (Z.of_nat (n - 48)) else None.

Definition is_digit (c : ascii) : bool :=
  match digit c with Some _ => true | None => false end.

Fixpoint digits (s : string) (acc : Z) : Z * string :=
  match s with
  | String c s' =>
      match digit c with
      | Some d => digits s' (10 * acc + d)
      | None => (acc, s)
      end
  | EmptyString => (acc, s)
  end.

(** An integer literal without sign: no leading zero. *)
Definition natural (s : string) : option (Z * string) :=
  match s with
  | String c s' =>
      match digit c with
      | Some 0%Z =>
          match s' with
          | String c' _ =>
              match digit c' with
              | Some _ => None
              | None => Some (0%Z, s')
              end
          | EmptyString => Some (0%Z, s')
          end
      | Some d => Some (digits s' d)
      | None => None
      end
  | EmptyString => None
  end.

Definition keyword (k : string) (v : JsValue) (s : string)
  : option (JsValue * string) :=
  if String.prefix k s
  then Some (v, String.substring (String.length k)
                  (String.length s - String.length k) s)
  else None.

Fixpoint value (fuel : nat) (s : string) : option (JsValue * string) :=
  match fuel with
  | 0 => None
  | S fuel' =>
      match skip_ws s with
      | EmptyString => None
      | String c rest =>
          let n := nat_of_ascii c in
          if Nat.eqb n 123 then
            match skip_ws rest with
            | String c' rest' =>
                if Nat.eqb (nat_of_ascii c') 125
                then Some (JsObject [], rest')
                else
                  match members fuel' rest [] with
                  | Some (fs, r) => Some (JsObject fs, r)
                  | None => None
                  end
            | EmptyString => None
            end
          else if Nat.eqb n 91 then
            match skip_ws rest with
            | String c' rest' =>
                if Nat.eqb (nat_of_ascii c') 93
                then Some (JsArray [], rest')
                else
                  match elements fuel' rest with
                  | Some (xs, r) => Some (JsArray xs, r)
                  | None => None
                  end
            | EmptyString => None
            end
          else if Nat.eqb n 34 then
            match string_body rest with
            | Some (str, r) => Some (JsString str, r)
            | None => None
            end
          else if Nat.eqb n 45 then
            match natural rest with
            | Some (z, r) => Some (JsNumber (- z), r)
            | None => None
            end
          else if is_digit c then
            match natural (String c rest) with
            | Some (z, r) => Some (JsNumber z, r)
            | None => None
            end
          else if Nat.eqb n 116 then keyword "true" (JsBool true) (String c rest)
          else if Nat.eqb n 102 then keyword "false" (JsBool false) (String c rest)
          else if Nat.eqb n 110 then keyword "null" JsNull (String c rest)
          else None
      end
  end

with elements (fuel : nat) (s : string) : option (list JsValue * string) :=
  match fuel with
  | 0 => None
  | S fuel' =>
      match value fuel' s with
      | Some (v, r) =>
          match skip_ws r with
          | String c r' =>
              let n := nat_of_ascii c in
              if Nat.eqb n 93 then Some ([v], r')
              else if Nat.eqb n 44 then
                match elements fuel' r' with
                | Some (xs, r'') => Some (v :: xs, r'')
                | None => None
                end
              else None
          | EmptyString => None
          end
      | None => None
      end
  end

with members (fuel : nat) (s : string) (acc : list (string * JsValue))
  : option (list (string * JsValue) * string) :=
  match fuel with
  | 0 => None
  | S fuel' =>
      match skip_ws s with
      | String q s1 =>
          if negb (Nat.eqb (nat_of_ascii q) 34) then None
          else
            match string_body s1 with
            | Some (key, s2) =>
                match skip_ws s2 with
                | String colon s3 =>
                    if negb (Nat.eqb (nat_of_ascii colon) 58) then None
                    else
                      match value fuel' s3 with
                      | Some (v, r) =>
                          let acc := set_field acc key v in
                          match skip_ws r with
                          | String c r' =>
                              let n := nat_of_ascii c in
                              if Nat.eqb n 125 then Some (acc, r')
                              else if Nat.eqb n 44 then members fuel' r' acc
                              else None
                          | EmptyString => None
                          end
                      | None => None
                      end
                | EmptyString => None
                end
            | None => None
            end
      | EmptyString => None
      end
  end.

Definition JSON_parse (text : string) : result JsValue :=
  match value (S (2 * String.length text)) text with
  | Some (v, rest) =>
      match skip_ws rest with
      | EmptyString => Ok v
      | _ => Throw (SyntaxError "Unexpected non-whitespace character after JSON")
      end
  | None => Throw (SyntaxError "Unexpected token or end of JSON input")
  end.

End JsonSubset.

(** A JSON string literal without escapes, for the examples. *)
Definition q (s : string) : string := dquote ++ s ++ dquote.

(** ** The accumulator on a store of objects

    [messageReducer] builds its result from fresh objects ([{ ...acc }]) and
    stores references to objects of [previous] and of the delta in them.  To
    state that it writes to no object that existed before the call, objects
    live here in a store and values refer to them by location. *)
Module Heap.

Definition loc := nat.

Inductive value : Type :=
| Undefined
| Null
| Bool (b : bool)
| Number (n : Z)
| Str (s : string)
| Ref (l : loc)
| ObjectPrototype.

Inductive object : Type :=
| Obj (fields : list (string * value))
| Arr (elems : list value).

Abbreviation heap := (gmap loc object).

Fixpoint get_field (fs : list (string * value)) (key : string) : value :=
  match fs with
  | [] => Undefined
  | (k, v) :: fs' => if String.eqb k key then v else get_field fs' key
  end.

Fixpoint indexed_from (i : nat) (xs : list value) : list (string * value) :=
  match xs with
  | [] => []
  | x :: xs' => (pretty i, x) :: indexed_from (S i) xs'
  end.

Definition chars (s : string) : list value :=
  map (fun c => Str (String c EmptyString)) (list_ascii_of_string s).

(** The own enumerable properties of a value; a location without object
    has none, and [Object.prototype], which is outside the store, has
    none. *)
Definition own_properties (h : heap) (v : value) : list (string * value) :=
  match v with
  | Str s => indexed_from 0 (chars s)
  | Ref l =>
      match h !! l with
      | Some (Obj fs) => fs
      | Some (Arr xs) => indexed_from 0 xs
      | None => []
      end
  | _ => []
  end.

(** A new object. *)
Definition alloc (h : heap) (o : object) : loc * heap :=
  let l := fresh (dom h) in (l, <[l := o]> h).

Definition fields_at (h : heap) (l : loc) : list (string * value) :=
  match h !! l with
  | Some (Obj fs) => fs
  | _ => []
  end.

(** [acc[key] = v] on the object at [acc]. *)
Definition write (h : heap) (acc : loc) (key : string) (v : value) : heap :=
  <[acc := Obj (set_field (fields_at h acc) key v)]> h.

(** The loop of [reduce] over the entries of the delta; [acc] is the
    location of the copy made by [{ ...acc }].  Members inherited from
    [Object.prototype] are read as in the tree model; the store has no
    prototype slot, so the merge that the [__proto__] setter installs as
    prototype of the copy stays in the store without being referred to. *)
Fixpoint reduce_entries
    (rec : heap -> value -> value -> heap * option (result value))
    (h : heap) (acc : loc) (entries : list (string * value))
  : heap * option (result unit) :=
  match entries with
  | [] => (h, Some (Ok tt))
  | (key, v) :: rest =>
      match inherited (fields_at h acc) key with
      | Some InheritedFunction => reduce_entries rec h acc rest
      | Some InheritedAccessor =>
          match rec h ObjectPrototype v with
          | (h', None) => (h', None)
          | (h', Some (Throw e)) => (h', Some (Throw e))
          | (h', Some (Ok _)) => reduce_entries rec h' acc rest
          end
      | None =>
          match get_field (fields_at h acc) key with
          | Undefined | Null => reduce_entries rec (write h acc key v) acc rest
          | Str s =>
              match v with
              | Str t =>
                  reduce_entries rec (write h acc key (Str (s ++ t))) acc rest
              | _ => reduce_entries rec h acc rest
              end
          | Ref r =>
              match h !! r with
              | Some (Obj _) =>
                  match rec h (Ref r) v with
                  | (h', None) => (h', None)
                  | (h', Some (Throw e)) => (h', Some (Throw e))
                  | (h', Some (Ok res)) =>
                      reduce_entries rec (write h' acc key res) acc rest
                  end
              | _ => reduce_entries rec h acc rest
              end
          | ObjectPrototype =>
              match rec h ObjectPrototype v with
              | (h', None) => (h', None)
              | (h', Some (Throw e)) => (h', Some (Throw e))
              | (h', Some (Ok res)) =>
                  reduce_entries rec (write h' acc key res) acc rest
              end
          | Bool _ | Number _ => reduce_entries rec h acc rest
          end
      end
  end.

(** [reduce(acc, delta)]: the copy is allocated first, then the entries of
    the delta are read. *)
Fixpoint reduce (fuel : nat) (h : heap) (acc delta : value)
  : heap * option (result value) :=
  match fuel with
  | 0 => (h, None)
  | S fuel' =>
      let '(l, h) := alloc h (Obj (own_properties h acc)) in
      match delta with
      | Undefined | Null =>
          (h, Some (Throw (TypeError "Cannot convert undefined or null to object")))
      | _ =>
          match reduce_entries (reduce fuel') h l (own_properties h delta) with
          | (h', None) => (h', None)
          | (h', Some (Throw e)) => (h', Some (Throw e))
          | (h', Some (Ok _)) => (h', Some (Ok (Ref l)))
          end
      end
  end.

(** [messageReducer(previous, item)], where [deltas] lists
    [item.choices[i].delta]. *)
Definition messageReducer (fuel : nat) (h : heap) (previous : value)
    (deltas : list value) : heap * option (result value) :=
  match deltas with
  | [] => (h, Some (Throw (TypeError "Cannot read properties of undefined (reading 'delta')")))
  | delta :: _ => reduce fuel h previous delta
  end.

(** The tree a value stands for in a store. *)
#[local] Unset Elimination Schemes.
Inductive repr (h : heap) : value -> JsValue -> Prop :=
| repr_undefined : repr h Undefined JsUndefined
| repr_null : repr h Null JsNull
| repr_bool b : repr h (Bool b) (JsBool b)
| repr_number n : repr h (Number n) (JsNumber n)
| repr_string s : repr h (Str s) (JsString s)
| repr_prototype : repr h ObjectPrototype Object_prototype
| repr_array l hxs xs :
    h !! l = Some (Arr hxs) ->
    Forall2 (repr h) hxs xs ->
    repr h (Ref l) (JsArray xs)
| repr_object l hfs fs :
    h !! l = Some (Obj hfs) ->
    Forall2 (fun hkv kv => fst hkv = fst kv /\ repr h (snd hkv) (snd kv)) hfs fs ->
    repr h (Ref l) (JsObject fs).
#[local] Set Elimination Schemes.

End Heap.

(** ** The telephony client of [twilio_api.ts]

    The Twilio and Retell services are collaborators: what each request
    returns or raises is a Section variable, and the requests a function
    issues are recorded in order, beside the console and the answer given to
    the webhook. *)
Module Twilio.

Record AvailableNumber := { available_phoneNumber : string }.

Record IncomingPhoneNumber := { phoneNumber : string; sid : string }.

Record CallDetail := { callId : string }.

(** The requests the client issues. *)
Inductive Request : Type :=
| ListAvailable (areaCode : Z)
| CreateIncoming (number voiceUrl : string)
| ListIncoming
| UpdateIncoming (numberSid voiceUrl voiceMethod : string)
| RemoveIncoming (phoneNumberKey : string)
| CreateCall (toNumber fromNumber url asyncAmdStatusCallback : string)
| UpdateCall (callSid : JsValue) (twiml : string)
| RegisterCall (agentId : string).

(** What a [catch] block receives: an error of a service, or the string
    that [CreatePhoneNumber] throws itself. *)
Inductive Raised : Type :=
| ServiceError (e : JsError)
| Text (s : string).

Inductive Line : Type :=
| LogGettingNumber (o : IncomingPhoneNumber)
| LogCreateNumberError (r : Raised)
| LogUnableToLocate
| LogUpdated (number numberSid agentId webhookUrl : string)
| LogCallerError (e : JsError)
| LogCall (fromNumber toNumber : string)
| LogEndCall
| LogEndError (e : JsError)
| LogTransferCall
| LogTransferError (e : JsError)
| LogWebhookRequest (body : JsValue) (agentId : string)
| LogWebhookError (e : JsError).

(** The answer to a webhook request: the TwiML that connects the call to a
    stream, or the bare status 500. *)
Inductive Answer : Type :=
| ConnectStream (url : string)
| Status500.

Record World := {
  requests : list Request;
  log : list Line;
  answers : list Answer }.

Definition issue (r : Request) (w : World) : World :=
  {| requests := (requests w ++ [r])%list; log := log w; answers := answers w |}.

Definition say (l : Line) (w : World) : World :=
  {| requests := requests w; log := (log w ++ [l])%list; answers := answers w |}.

Definition answer (a : Answer) (w : World) : World :=
  {| requests := requests w; log := log w; answers := (answers w ++ [a])%list |}.

Section Client.

(** [process.env.NGROK_IP_ADDRESS], absent or set. *)
Variable NGROK_IP_ADDRESS : option string.

Variable list_available : Z -> result (list AvailableNumber).
Variable create_incoming : string -> string -> result IncomingPhoneNumber.
Variable list_incoming : result (list IncomingPhoneNumber).
Variable update_incoming : string -> string -> string -> result unit.
Variable remove_incoming : string -> result unit.
Variable create_call : string -> string -> string -> string -> result unit.
Variable update_call : JsValue -> string -> result unit.
Variable register_call : string -> result (option CallDetail).

(** [`${process.env.NGROK_IP_ADDRESS}/twilio-voice-webhook/${agentId}`] *)
Definition webhook_url (agentId : string) : string :=
  default "undefined" NGROK_IP_ADDRESS ++ "/twilio-voice-webhook/" ++ agentId.

(** [CreatePhoneNumber(areaCode, agentId)]; [None] is the result
    [undefined]. *)
Definition CreatePhoneNumber (areaCode : Z) (agentId : string) (w : World)
  : World * result (option IncomingPhoneNumber) :=
  let w := issue (ListAvailable areaCode) w in
  match list_available areaCode with
  | Throw e => (say (LogCreateNumberError (ServiceError e)) w, Ok None)
  | Ok [] =>
      (say (LogCreateNumberError (Text "No phone numbers of this area code.")) w,
       Ok None)
  | Ok (first :: _) =>
      let w := issue (CreateIncoming (available_phoneNumber first)
                                     (webhook_url agentId)) w in
      match create_incoming (available_phoneNumber first) (webhook_url agentId) with
      | Throw e => (say (LogCreateNumberError (ServiceError e)) w, Ok None)
      | Ok phoneNumberObject =>
          (say (LogGettingNumber phoneNumberObject) w, Ok (Some phoneNumberObject))
      end
  end.

(** The loop of [RegisterPhoneAgent] over the numbers of the account. *)
Definition find_sid (number : string) (phoneNumberObjects : list IncomingPhoneNumber)
  : option string :=
  foldl (fun numberSid phoneNumberObject =>
           if String.eqb (phoneNumber phoneNumberObject) number
           then Some (sid phoneNumberObject) else numberSid)
        None phoneNumberObjects.

(** [RegisterPhoneAgent(number, agentId)] *)
Definition RegisterPhoneAgent (number agentId : string) (w : World)
  : World * result unit :=
  let w := issue ListIncoming w in
  match list_incoming with
  | Throw e => (say (LogCallerError e) w, Ok tt)
  | Ok phoneNumberObjects =>
      let webhookUrl := webhook_url agentId in
      match find_sid number phoneNumberObjects with
      | None => (say LogUnableToLocate w, Ok tt)
      | Some numberSid =>
          let w := issue (UpdateIncoming numberSid webhookUrl "POST") w in
          match update_incoming numberSid webhookUrl "POST" with
          | Throw e => (say (LogCallerError e) w, Ok tt)
          | Ok _ => (say (LogUpdated number numberSid agentId webhookUrl) w, Ok tt)
          end
      end
  end.

(** [DeletePhoneNumber(phoneNumberKey)] *)
Definition DeletePhoneNumber (phoneNumberKey : string) (w : World)
  : World * result unit :=
  (issue (RemoveIncoming phoneNumberKey) w, remove_incoming phoneNumberKey).

(** [CreatePhoneCall(fromNumber, toNumber, agentId)] *)
Definition CreatePhoneCall (fromNumber toNumber agentId : string) (w : World)
  : World * result unit :=
  let w := issue (CreateCall toNumber fromNumber (webhook_url agentId)
                             (webhook_url agentId)) w in
  match create_call toNumber fromNumber (webhook_url agentId)
                    (webhook_url agentId) with
  | Throw e => (say (LogCallerError e) w, Ok tt)
  | Ok _ => (say (LogCall fromNumber toNumber) w, Ok tt)
  end.

(** [EndCall(sid)] *)
Definition EndCall (callSid : JsValue) (w : World) : World * result unit :=
  let twiml := "<Response><Hangup></Hangup></Response>" in
  let w := issue (UpdateCall callSid twiml) w in
  match update_call callSid twiml with
  | Throw e => (say (LogEndError e) w, Ok tt)
  | Ok _ => (say LogEndCall w, Ok tt)
  end.

(** [TransferCall(sid, transferTo)] *)
Definition TransferCall (callSid : JsValue) (transferTo : string) (w : World)
  : World * result unit :=
  let twiml := "<Response><Dial>" ++ transferTo ++ "</Dial></Response>" in
  let w := issue (UpdateCall callSid twiml) w in
  match update_call callSid twiml with
  | Throw e => (say (LogTransferError e) w, Ok tt)
  | Ok _ => (say LogTransferCall w, Ok tt)
  end.

(** The handler that [ListenTwilioVoiceWebhook] installs, on a request with
    the given body and [agent_id] parameter.  [req.body.AnsweredBy] is read
    before the [try] block.  [EndCall] is not awaited; it never rejects, and
    its request is issued when it is called. *)
Definition voice_webhook (body : JsValue) (agent_id : string) (w : World)
  : World * result unit :=
  let w := say (LogWebhookRequest body agent_id) w in
  match get_prop body "AnsweredBy" with
  | Throw e => (w, Throw e)
  | Ok answeredBy =>
      if truthy answeredBy && strict_eq_string "machine_start" answeredBy then
        match get_prop body "CallSid" with
        | Throw e => (answer Status500 (say (LogWebhookError e) w), Ok tt)
        | Ok callSid => ((EndCall callSid w).1, Ok tt)
        end
      else if truthy answeredBy then (w, Ok tt)
      else
        let w := issue (RegisterCall agent_id) w in
        match register_call agent_id with
        | Throw e => (answer Status500 (say (LogWebhookError e) w), Ok tt)
        | Ok (Some callDetail) =>
            (answer (ConnectStream ("wss://api.retellai.com/audio-websocket/"
                                    ++ callId callDetail)) w, Ok tt)
        | Ok None => (w, Ok tt)
        end
  end.

End Client.

End Twilio.

(** ** Vocabulary of the statements *)

(** *** The accumulator *)

(** The values of all fields nest objects and arrays at most [m] deep. *)
Definition fields_below (m : nat) (fs : list (string * JsValue)) : Prop :=
  Forall (fun kv => depth (snd kv) <= m) fs.

(** An event with one choice that carries the delta [d] and no finish
    reason. *)
Definition delta_event (d : JsValue) : ChatCompletionChunk :=
  {| choices := [ {| delta := d; finish_reason := None |} ] |}.

(** A delta whose top-level fields are all string-valued, and an event
    carrying such a delta in its first choice. *)
Definition string_fields (fs : list (string * JsValue)) : Prop :=
  Forall (fun kv => is_string (snd kv) = true) fs.

Definition string_valued_event (event : ChatCompletionChunk) : Prop :=
  exists c cs fs,
    choices event = c :: cs /\ delta c = JsObject fs /\ string_fields fs.

(** The fragments an entry list carries for [key], in order. *)
Definition fragments_of (key : string) (entries : list (string * JsValue))
  : list string :=
  omap (fun '(k, v) =>
          if String.eqb k key
          then match v with JsString s => Some s | _ => None end
          else None) entries.

(** The fragments a stream carries for [key], in arrival order. *)
Definition fragments (key : string) (events : list ChatCompletionChunk)
  : list string :=
  flat_map (fun event =>
              match choices event with
              | c :: _ => fragments_of key (own_properties (delta c))
              | [] => []
              end) events.

(** The keys of the delta of the first choice of an event. *)
Definition delta_keys (event : ChatCompletionChunk) : list string :=
  match choices event with
  | c :: _ => (own_properties (delta c)).*1
  | [] => []
  end.

Definition concat_fragments (frs : list string) : string :=
  foldr String.append EmptyString frs.

(** The value of a field after a stream: absent when no delta mentions it,
    the concatenation of its fragments otherwise. *)
Definition concatenation (frs : list string) : JsValue :=
  match frs with
  | [] => JsUndefined
  | _ => JsString (concat_fragments frs)
  end.

(** Appending fragments to what is there already. *)
Definition append_fragments (existing : JsValue) (frs : list string) : JsValue :=
  match frs with
  | [] => existing
  | _ => JsString (match existing with JsString t => t | _ => EmptyString end
                   ++ concat_fragments frs)
  end.

(** *** The conversation formatter *)

(** A turn as the provider sees it. *)
Definition chat_message (turn : Utterance) : ChatCompletionMessageParam :=
  {| msg_role := if String.eqb (u_role turn) "agent" then "assistant" else "user";
     msg_content := u_content turn |}.

Definition system_message (persona : string) : ChatCompletionMessageParam :=
  {| msg_role := "system"; msg_content := style_policy ++ persona |}.

Definition reminder_message : ChatCompletionMessageParam :=
  {| msg_role := "user"; msg_content := reminder_text |}.

Local Close Scope string_scope.

(** *** The drafting cycle *)

(** Frames produced by the streaming loop: partial frames of the request. *)
Definition partial_frames (request : RetellRequest)
    (frames : list RetellResponse) : Prop :=
  Forall (fun frame => exists fragment,
            frame = partial_frame request fragment /\ truthy fragment = true)
         frames.

(** The frames one event adds, as a function of the event alone. *)
Definition frames_of_event (request : RetellRequest)
    (event : ChatCompletionChunk) : list RetellResponse :=
  match choices event with
  | [] => []
  | c :: _ =>
      if is_function_call (finish_reason c) then []
      else if negb (truthy (delta c)) then []
      else match get_prop (delta c) "content" with
           | Ok fragment =>
               if truthy fragment then [partial_frame request fragment] else []
           | Throw _ => []
           end
  end.

(** An event that does not announce a function call. *)
Definition no_function_call_event (event : ChatCompletionChunk) : Prop :=
  match choices event with
  | c :: _ => is_function_call (finish_reason c) = false
  | [] => True
  end.

(** A stream in which no tool call is detected. *)
Definition no_tool_call (stream : CompletionStream) : Prop :=
  match stream with
  | StreamRejected _ => True
  | StreamOpened events _ => Forall no_function_call_event events
  end.

(** A stream that fails to open or raises after its last event. *)
Definition stream_fails (stream : CompletionStream) : Prop :=
  match stream with
  | StreamRejected _ => True
  | StreamOpened _ failure => is_Some failure
  end.

(** A cycle that closes: the promise is fulfilled, and what was sent is a run
    of incomplete frames followed by the one terminal frame, which is
    complete and has the empty content; a failure of the stream is on the
    console. *)
Definition closes (outcome : State * result unit) (request : RetellRequest)
    (w : State) (stream : CompletionStream) : Prop :=
  snd outcome = Ok tt
  /\ (exists partials,
        ws (fst outcome) = ws w ++ partials ++ [terminal_frame request]
        /\ Forall (fun frame => content_complete frame = false) partials)
  /\ content (terminal_frame request) = JsString EmptyString
  /\ content_complete (terminal_frame request) = true
  /\ (stream_fails stream ->
      exists e, LogStreamError e ∈ console (fst outcome)).

(** *** Requests, streams and states of the examples *)

Definition initial_state : State :=
  {| lastPrintedUserMessage := None; console := []; ws := [] |}.

Definition content_event (s : string) : ChatCompletionChunk :=
  {| choices := [ {| delta := JsObject [("content", JsString s)];
                     finish_reason := None |} ] |}.

Definition finish_event (reason : string) : ChatCompletionChunk :=
  {| choices := [ {| delta := JsObject []; finish_reason := Some reason |} ] |}.

(** The message of a function call with the argument text received so
    far. *)
Definition function_call_value (name arguments : string) : JsValue :=
  JsObject [("name", JsString name); ("arguments", JsString arguments)].

Definition call_message (name arguments : string) : JsValue :=
  JsObject [("role", JsString "assistant"); ("content", JsNull);
            ("function_call", function_call_value name arguments)].

(** A chunk with one more piece of the argument text. *)
Definition argument_event (piece : string) : ChatCompletionChunk :=
  delta_event
    (JsObject [("function_call", JsObject [("arguments", JsString piece)])]).

(** The chunks of a function call as the provider streams them: the name
    first, the argument text in pieces, the finish signal last. *)
Definition function_call_events (name : string) (pieces : list string)
  : list ChatCompletionChunk :=
  delta_event (call_message name EmptyString)
  :: map argument_event pieces ++ [finish_event "function_call"].

Definition book_request : RetellRequest :=
  {| req_response_id := 3;
     transcript := [ {| u_role := "user";
                        u_content := "find me a historical book" |} ];
     interaction_type := "response_required" |}.

Definition hi_there : CompletionStream :=
  StreamOpened [content_event "Hi"; content_event " there"; finish_event "stop"]
               None.

Definition list_historical_stream : CompletionStream :=
  StreamOpened
    (function_call_events "list"
       [ "{" +:+ q "genre" ; ": " +:+ q "historical" +:+ "}" ]) None.

Definition truncated_arguments_stream : CompletionStream :=
  StreamOpened (function_call_events "get" [ "{" +:+ q "id" ]) None.


(** *** The store model *)

(** A message with a nested function call, and a delta continuing its
    argument text. *)
Definition nested_store : Heap.heap :=
  <[0 := Heap.Obj [("role", Heap.Str "assistant");
                   ("function_call", Heap.Ref 1)]]>
  (<[1 := Heap.Obj [("name", Heap.Str "list"); ("arguments", Heap.Str "{")]]>
  (<[2 := Heap.Obj [("function_call", Heap.Ref 3)]]>
  (<[3 := Heap.Obj [("arguments", Heap.Str "}")]]> ∅))).

(** The fields of an object of the store stand for the fields of a tree. *)
Definition fields_repr (h : Heap.heap) (hfs : list (string * Heap.value))
    (fs : list (string * JsValue)) : Prop :=
  Forall2 (fun hkv kv => fst hkv = fst kv /\ Heap.repr h (snd hkv) (snd kv))
          hfs fs.

(** The outcome of the store model stands for the outcome of the tree
    model. *)
Definition outcome_repr (h : Heap.heap) (hr : result Heap.value)
    (r : result JsValue) : Prop :=
  match hr, r with
  | Ok hv, Ok v => Heap.repr h hv v
  | Throw e', Throw e => e' = e
  | _, _ => False
  end.

(** What the simulation gives for a call started in store [h], when the
    arguments are trees of the part [hb] of [h]: the call returns; the result
    is a tree of a part [hb'] of the final store that extends [hb] by
    locations that were free in [h]. *)
Definition simulates (hb h : Heap.heap)
    (out : Heap.heap * option (result Heap.value)) (r : result JsValue) : Prop :=
  exists hr hb',
    out.2 = Some hr /\ hb ⊆ hb' /\ hb' ⊆ out.1
    /\ (forall x, x ∈ dom hb' -> x ∈ dom h -> x ∈ dom hb)
    /\ outcome_repr hb' hr r.

(** The same for the loop of [reduce] on the copy at [l]: the loop returns,
    the copy is no object of [hb'], and when the loop ends without error the
    fields of the copy are trees of [hb']. *)
Definition loop_simulates (hb h : Heap.heap) (l : Heap.loc)
    (out : Heap.heap * option (result unit))
    (r : result (list (string * JsValue))) : Prop :=
  exists hr hb',
    out.2 = Some hr /\ hb ⊆ hb' /\ hb' ⊆ out.1 /\ hb' !! l = None
    /\ (forall x, x ∈ dom hb' -> x ∈ dom h -> x ∈ dom hb)
    /\ match hr, r with
       | Ok _, Ok fs' =>
           exists hfs',
             out.1 !! l = Some (Heap.Obj hfs') /\ fields_repr hb' hfs' fs'
       | Throw e', Throw e => e' = e
       | _, _ => False
       end.

(** *** Further statements on the accumulator *)

(** What a field may become once it has the value [before]: a string is
    extended at its end, a plain object stays a plain object, a number, a
    boolean or an array stays as it is; an absent or null field may become
    anything. *)
Definition extends (before after : JsValue) : Prop :=
  match before with
  | JsUndefined | JsNull => True
  | JsString s => exists t, after = JsString (s +:+ t)
  | JsObject _ => is_plain_object after = true
  | JsBool _ | JsNumber _ | JsArray _ => after = before
  end.

(** *** Further statements on the drafting cycle *)

(** The content fragment of an event as the plain client reads it: the
    truthy [content] of the delta of the first choice, if there is one. *)
Definition event_fragment (event : ChatCompletionChunk) : list JsValue :=
  match choices event with
  | [] => []
  | c :: _ =>
      if truthy (delta c) then
        match get_prop (delta c) "content" with
        | Ok fragment => if truthy fragment then [fragment] else []
        | Throw _ => []
        end
      else []
  end.

Definition content_fragments (events : list ChatCompletionChunk) : list JsValue :=
  flat_map event_fragment events.

(** The events the accumulator accepts, up to the first one it rejects. *)
Fixpoint accepted (message : JsValue) (events : list ChatCompletionChunk)
  : list ChatCompletionChunk :=
  match events with
  | [] => []
  | event :: rest =>
      match messageReducer message event with
      | Ok message' => event :: accepted message' rest
      | Throw _ => []
      end
  end.

(** The text of the frames, as [completeMessage] collects it. *)
Definition text_of (frames : list RetellResponse) : string :=
  concat_fragments (map (fun frame => to_string (content frame)) frames).

(** The latest user turn of a transcript: no user turn follows it. *)
Definition latest_user_turn (turns : list Utterance) (u : Utterance) : Prop :=
  exists before after,
    turns = before ++ u :: after
    /\ u_role u = "user"
    /\ Forall (fun turn => u_role turn <> "user") after.

(** * Properties *)

Local Open Scope string_scope.

(** ** The parser on examples *)

Example JSON_parse_genre :
  JsonSubset.JSON_parse ("{" ++ q "genre" ++ ": " ++ q "historical" ++ "}")
  = Ok (JsObject [("genre", JsString "historical")]).
Proof. vm_compute. reflexivity. Qed.

Example JSON_parse_nested :
  JsonSubset.JSON_parse ("[1, -20, {" ++ q "a" ++ ":[true,null]}, " ++ q "x\ny" ++ " ]")
  = Ok (JsArray [JsNumber 1; JsNumber (-20);
                 JsObject [("a", JsArray [JsBool true; JsNull])];
                 JsString ("x" ++ String (ascii_of_nat 10) "y")]).
Proof. vm_compute. reflexivity. Qed.

Example JSON_parse_truncated :
  JsonSubset.JSON_parse ("{" ++ q "genre" ++ ": ")
  = Throw (SyntaxError "Unexpected token or end of JSON input").
Proof. vm_compute. reflexivity. Qed.

(** ** Property access *)

Lemma get_set_field_eq fs key v : get_field (set_field fs key v) key = v.
Proof.
  induction fs as [|[k w] fs IH]; simpl.
  - by rewrite String.eqb_refl.
  - destruct (String.eqb k key) eqn:E; simpl; rewrite E; auto.
Qed.

Lemma get_set_field_ne fs key key' v :
  key <> key' -> get_field (set_field fs key v) key' = get_field fs key'.
Proof.
  intros Hne. induction fs as [|[k w] fs IH]; simpl.
  - destruct (String.eqb key key') eqn:E; [|done].
    apply String.eqb_eq in E. done.
  - destruct (String.eqb k key) eqn:E; simpl.
    + apply String.eqb_eq in E. subst k.
      destruct (String.eqb key key') eqn:E'; [|done].
      apply String.eqb_eq in E'. done.
    + destruct (String.eqb k key'); auto.
Qed.

(** ** The recursion bound of [messageReducer] is never reached *)

Lemma fields_below_get m fs key :
  fields_below m fs -> depth (get_field fs key) <= m.
Proof.
  induction 1 as [|[k v] fs Hv _ IH]; simpl; [lia|].
  destruct (String.eqb k key); auto.
Qed.

Lemma fields_below_set m fs key v :
  fields_below m fs -> depth v <= m -> fields_below m (set_field fs key v).
Proof.
  intros Hfs Hv. induction Hfs as [|[k w] fs Hw Hfs IH]; simpl.
  - by constructor.
  - destruct (String.eqb k key); constructor; auto.
Qed.

Lemma depth_foldr_le {A} (f : A -> nat) (l : list A) m :
  foldr (fun x d => Nat.max (f x) d) 0 l <= m <-> Forall (fun x => f x <= m) l.
Proof.
  induction l as [|x l IH]; simpl.
  - split; [constructor | lia].
  - rewrite Forall_cons, <- IH. lia.
Qed.

Lemma indexed_from_below m i xs :
  Forall (fun x => depth x <= m) xs -> fields_below m (indexed_from i xs).
Proof.
  intros H. revert i.
  induction H as [|x xs Hx _ IH]; intros i; simpl; [constructor|].
  apply Forall_cons. split; [exact Hx | apply IH].
Qed.

Lemma own_properties_below m v :
  depth v <= S m -> fields_below m (own_properties v).
Proof.
  destruct v as [| | | | s | xs | fs]; simpl; intros Hd;
    try (by constructor).
  - apply indexed_from_below. unfold chars.
    apply Forall_forall. intros x Hx%list_elem_of_In.
    apply in_map_iff in Hx as (c & <- & _). simpl. lia.
  - apply indexed_from_below. apply depth_foldr_le. lia.
  - apply (depth_foldr_le (fun kv => depth (snd kv))). lia.
Qed.

(** *** Own properties and inherited members *)

Lemma has_own_get_field fs key :
  has_own fs key = false -> get_field fs key = JsUndefined.
Proof.
  induction fs as [|[k v] fs IH]; simpl; [done|].
  destruct (String.eqb k key); [done | exact IH].
Qed.

Lemma inherited_own {A} (fs : list (string * A)) key :
  has_own fs key = true -> inherited fs key = None.
Proof. unfold inherited. by intros ->. Qed.

Lemma inherited_set {fs : list (string * JsValue)} {key} :
  get_field fs key <> JsUndefined -> inherited fs key = None.
Proof.
  intros Hset. apply inherited_own.
  destruct (has_own fs key) eqn:E; [done|].
  by apply has_own_get_field in E.
Qed.

Lemma has_own_set_field {A} (fs : list (string * A)) k key v :
  has_own (set_field fs k v) key = has_own fs key || String.eqb k key.
Proof.
  induction fs as [|[k' w] fs IH]; simpl.
  - by rewrite orb_false_r.
  - destruct (String.eqb k' k) eqn:E; simpl.
    + apply String.eqb_eq in E as ->.
      destruct (String.eqb k key); simpl; [done | by rewrite orb_false_r].
    + rewrite IH. by rewrite orb_assoc.
Qed.

(** The decimal numerals, the keys of the characters of a string and of the
    elements of an array, are no members of [Object.prototype]. *)
Lemma pretty_N_go_head x :
  forall s, (0 < x)%N ->
    exists d t, pretty_N_go x s = String (pretty_N_char d) t.
Proof.
  induction (N.lt_wf_0 x) as [x _ IH]; intros s Hx.
  rewrite pretty_N_go_step by done.
  destruct (N.eq_0_gt_0_cases (x `div` 10)) as [->|Hdiv].
  - rewrite pretty_N_go_0. by eexists _, _.
  - apply IH; [by apply N.div_lt | done].
Qed.

Lemma pretty_nat_head (i : nat) :
  exists d t, pretty i = String (pretty_N_char d) t.
Proof.
  unfold pretty, pretty_nat, pretty, pretty_N.
  destruct (decide (N.of_nat i = 0%N)) as [_|Hne].
  - by exists 0%N, EmptyString.
  - apply pretty_N_go_head. lia.
Qed.

Lemma inherited_numeral {A} (fs : list (string * A)) (i : nat) :
  inherited fs (pretty i) = None.
Proof.
  destruct (pretty_nat_head i) as (d & t & ->).
  unfold inherited. destruct (has_own fs _); [done|].
  unfold pretty_N_char. by repeat case_match.
Qed.

Lemma inherited_indexed_from {A} (fs : list (string * A)) xs :
  forall i, Forall (fun kv => forall acc : list (string * A),
                      inherited acc (fst kv) <> Some InheritedAccessor)
                   (indexed_from i xs).
Proof.
  induction xs as [|x xs IH]; intros i; simpl; constructor; [|apply IH].
  simpl. intros acc. by rewrite inherited_numeral.
Qed.

(** *** The bound *)

(** The loop returns when the fields of the copy nest at most [m] deep, the
    values of the entries one level less, and the recursive call returns on
    such arguments.  A delta without nesting is not an object: it has no
    [__proto__] entry. *)
Lemma reduce_entries_bounded m rec :
  (forall o v, depth (JsObject o) <= m -> depth v <= pred m ->
     exists r, rec (JsObject o) v = Some r
               /\ forall w, r = Ok w -> depth w <= m) ->
  forall entries acc,
    fields_below m acc -> fields_below (pred m) entries ->
    (m = 0 -> Forall (fun kv => forall acc' : list (string * JsValue),
                        inherited acc' (fst kv) <> Some InheritedAccessor)
                     entries) ->
    exists r, reduce_entries rec acc entries = Some r
              /\ forall fs, r = Ok fs -> fields_below m fs.
Proof.
  intros Hrec entries.
  induction entries as [|[key value] rest IH]; intros acc Hacc Hent Hkeys; simpl.
  - eexists; split; [done|]. by intros fs [= <-].
  - apply Forall_cons in Hent as [Hv Hrest]. simpl in Hv.
    assert (m = 0 -> Forall (fun kv => forall acc' : list (string * JsValue),
                               inherited acc' (fst kv) <> Some InheritedAccessor)
                            rest) as Hkeys'.
    { intros Hm. specialize (Hkeys Hm). by apply Forall_cons in Hkeys as [_ ?]. }
    assert (depth value <= m) as Hv' by lia.
    destruct (inherited acc key) as [[|]|] eqn:I.
    + by apply IH.
    + destruct m as [|m].
      { exfalso. specialize (Hkeys eq_refl).
        apply Forall_cons in Hkeys as [Hk _]. by apply (Hk acc). }
      destruct (Hrec [] value) as (r & Hr0 & Hr); [simpl; lia | done |].
      change (JsObject []) with Object_prototype in Hr0. rewrite Hr0.
      destruct r as [w|e].
      * by apply IH.
      * eexists; split; [done|]. intros fs [=].
    + pose proof (fields_below_get m acc key Hacc) as Hget.
      destruct (get_field acc key) as [| | | | s | xs | o] eqn:E;
        try (apply IH; auto using fields_below_set).
      * destruct value; apply IH; auto using fields_below_set.
      * destruct (Hrec o value Hget Hv) as (r & -> & Hr).
        destruct r as [w|e].
        -- apply IH; auto using fields_below_set.
        -- eexists; split; [done|]. intros fs [=].
Qed.

Lemma reduce_S fuel acc delta :
  reduce (S fuel) acc delta =
  match Object_entries delta with
  | Throw e => Some (Throw e)
  | Ok entries =>
      match reduce_entries (reduce fuel) (spread acc) entries with
      | None => None
      | Some (Throw e) => Some (Throw e)
      | Some (Ok fs) => Some (Ok (JsObject fs))
      end
  end.
Proof. reflexivity. Qed.

Lemma Object_entries_Ok delta entries :
  Object_entries delta = Ok entries -> entries = own_properties delta.
Proof. destruct delta; simpl; congruence. Qed.

Lemma own_properties_flat v :
  depth v <= 0 ->
  Forall (fun kv => forall acc' : list (string * JsValue),
            inherited acc' (fst kv) <> Some InheritedAccessor)
         (own_properties v).
Proof.
  destruct v as [| | | | s | xs | fs]; simpl; intros Hd;
    try (by constructor); try lia.
  apply (inherited_indexed_from []).
Qed.

Lemma reduce_bounded m :
  forall acc delta,
    fields_below m (own_properties acc) ->
    depth delta <= m ->
    exists r, reduce (S m) acc delta = Some r
              /\ forall w, r = Ok w -> depth w <= S m.
Proof.
  induction m as [|m IH]; intros acc delta Hacc Hdelta; rewrite reduce_S;
    (destruct (Object_entries delta) as [entries|e] eqn:E;
      [apply Object_entries_Ok in E as ->
      | eexists; split; [done|]; intros w [=]]).
  - destruct (reduce_entries_bounded 0 (reduce 0)) with
      (entries := own_properties delta) (acc := spread acc)
      as (r & Hr & Hb); auto.
    { intros o v Ho. simpl in Ho. lia. }
    { apply own_properties_below. lia. }
    { intros _. by apply own_properties_flat. }
    rewrite Hr. destruct r as [fs|e].
    + eexists; split; [done|]. intros w [= <-]. simpl.
      apply le_n_S. apply (depth_foldr_le (fun kv => depth (snd kv))).
      by apply Hb.
    + eexists; split; [done|]. intros w [=].
  - destruct (reduce_entries_bounded (S m) (reduce (S m))) with
      (entries := own_properties delta) (acc := spread acc)
      as (r & Hr & Hb); auto.
    { intros o v Ho Hv. apply IH; [by apply own_properties_below | done]. }
    { by apply own_properties_below. }
    { intros [=]. }
    rewrite Hr. destruct r as [fs|e].
    + eexists; split; [done|]. intros w [= <-]. simpl.
      apply le_n_S. apply (depth_foldr_le (fun kv => depth (snd kv))).
      by apply Hb.
    + eexists; split; [done|]. intros w [=].
Qed.

(** With the bound [messageReducer] passes, [reduce] always returns. *)
Lemma reduce_enough_fuel acc delta :
  exists r, reduce (S (Nat.max (depth acc) (depth delta))) acc delta = Some r.
Proof.
  destruct (reduce_bounded (Nat.max (depth acc) (depth delta)) acc delta)
    as (r & Hr & _); [| |by exists r].
  - apply own_properties_below. lia.
  - lia.
Qed.

Lemma messageReducer_no_overflow previous item msg :
  messageReducer previous item <> Throw (RangeError msg).
Proof.
  unfold messageReducer. destruct (choices item) as [|c cs]; [done|].
  destruct (reduce_enough_fuel previous (delta c)) as (r & Hr).
  rewrite Hr. intros ->.
  (* a [RangeError] is produced by no branch of [reduce] *)
  revert Hr. generalize (S (Nat.max (depth previous) (depth (delta c)))).
  intros n. revert previous. generalize (delta c). clear.
  induction n as [|n IH]; intros d a; [done|]. rewrite reduce_S.
  destruct (Object_entries d) as [entries|e] eqn:E.
  - assert (forall acc, reduce_entries (reduce n) acc entries
                        <> Some (Throw (RangeError msg))) as Hent.
    { clear E. induction entries as [|[k v] rest IHr]; intros acc; simpl; [done|].
      destruct (inherited acc k) as [[|]|]; auto.
      { destruct (reduce n Object_prototype v) as [[w|e]|] eqn:R; auto.
        intros [= ->]. by apply IH in R. }
      destruct (get_field acc k) as [| | | | s | xs | o]; auto.
      - destruct v; auto.
      - destruct (reduce n (JsObject o) v) as [[w|e]|] eqn:R; auto.
        intros [= ->]. by apply IH in R. }
    specialize (Hent (spread a)).
    destruct (reduce_entries (reduce n) (spread a) entries) as [[fs|e]|];
      congruence.
  - destruct d; simpl in E; congruence.
Qed.

(** ** Field-level behaviour of the merge *)

(** A key that is not among the entries of the delta keeps its value. *)
Lemma reduce_entries_other rec key entries :
  forall acc fs,
    key ∉ entries.*1 ->
    reduce_entries rec acc entries = Some (Ok fs) ->
    get_field fs key = get_field acc key.
Proof.
  induction entries as [|[k v] rest IH]; intros acc fs Hnot; simpl.
  - by intros [= <-].
  - apply not_elem_of_cons in Hnot as [Hne Hnot]. simpl in Hne.
    assert (forall w, get_field (set_field acc k w) key = get_field acc key)
      as Hset by (intros w; apply get_set_field_ne; congruence).
    destruct (inherited acc k) as [[|]|].
    { by apply IH. }
    { destruct (rec Object_prototype v) as [[w|e]|]; [|done..]. by apply IH. }
    destruct (get_field acc k) as [| | | | s | xs | o].
    1,2: intros H; rewrite (IH _ _ Hnot H); apply Hset.
    1,2,4: by apply IH.
    + destruct v; intros H; rewrite (IH _ _ Hnot H); auto.
    + destruct (rec (JsObject o) v) as [[w|e]|]; [|done..].
      intros H. rewrite (IH _ _ Hnot H). apply Hset.
Qed.

(** The entry of the delta for [key] is dropped when the existing value is
    set, is not a plain object, and mismatches the incoming value. *)
Lemma reduce_entries_kept rec key value entries :
  forall acc fs,
    NoDup entries.*1 ->
    (key, value) ∈ entries ->
    type_mismatch (get_field acc key) value = true ->
    is_plain_object (get_field acc key) = false ->
    reduce_entries rec acc entries = Some (Ok fs) ->
    get_field fs key = get_field acc key.
Proof.
  induction entries as [|[k v] rest IH]; intros acc fs Hnd Hin Hmis Hobj.
  - by apply elem_of_nil in Hin.
  - simpl in Hnd. apply NoDup_cons in Hnd as [Hk Hnd].
    apply elem_of_cons in Hin as [[= <- <-]|Hin].
    + (* the entry at hand *)
      assert (inherited acc key = None) as I.
      { apply inherited_set. intros E. by rewrite E in Hmis. }
      simpl. rewrite I. intros H.
      assert (reduce_entries rec acc rest = Some (Ok fs)) as H'.
      { destruct (get_field acc key) as [| | | | s | xs | o];
          try done; destruct value; done. }
      exact (reduce_entries_other rec key rest acc fs Hk H').
    + (* an entry for another key *)
      assert (k <> key) as Hne.
      { intros ->. apply Hk. apply list_elem_of_fmap. by exists (key, value). }
      assert (forall w, get_field (set_field acc k w) key = get_field acc key)
        as Hset by (intros w; by apply get_set_field_ne).
      simpl.
      destruct (inherited acc k) as [[|]|].
      { by apply IH. }
      { destruct (rec Object_prototype v) as [[w|e]|]; [|done..]. by apply IH. }
      destruct (get_field acc k) as [| | | | s | xs | o].
      1,2: intros H; rewrite <- (Hset v); apply (IH _ _ Hnd Hin);
             rewrite ?Hset; done.
      1,2,4: by apply IH.
      * destruct v; try (by apply IH).
        intros H. rewrite <- (Hset (JsString (s ++ s0))).
        apply (IH _ _ Hnd Hin); rewrite ?Hset; done.
      * destruct (rec (JsObject o) v) as [[w|e]|]; [|done..].
        intros H. rewrite <- (Hset w).
        apply (IH _ _ Hnd Hin); rewrite ?Hset; done.
Qed.

(** The entry of the delta for [key] is merged into the existing value when
    that value is a plain object. *)
Lemma reduce_entries_merged rec key value o entries :
  forall acc fs,
    NoDup entries.*1 ->
    (key, value) ∈ entries ->
    get_field acc key = JsObject o ->
    reduce_entries rec acc entries = Some (Ok fs) ->
    exists merged,
      rec (JsObject o) value = Some (Ok merged) /\ get_field fs key = merged.
Proof.
  induction entries as [|[k v] rest IH]; intros acc fs Hnd Hin Hobj.
  - by apply elem_of_nil in Hin.
  - simpl in Hnd. apply NoDup_cons in Hnd as [Hk Hnd].
    apply elem_of_cons in Hin as [[= <- <-]|Hin].
    + assert (inherited acc key = None) as I.
      { apply inherited_set. by rewrite Hobj. }
      simpl. rewrite I, Hobj.
      destruct (rec (JsObject o) value) as [[merged|e]|]; [|done..].
      intros H. exists merged. split; [done|].
      rewrite (reduce_entries_other rec key rest _ fs Hk H).
      apply get_set_field_eq.
    + assert (k <> key) as Hne.
      { intros ->. apply Hk. apply list_elem_of_fmap. by exists (key, value). }
      assert (forall w, get_field (set_field acc k w) key = JsObject o)
        as Hset by (intros w; by rewrite get_set_field_ne).
      simpl.
      destruct (inherited acc k) as [[|]|].
      { by apply IH. }
      { destruct (rec Object_prototype v) as [[w|e]|]; [|done..]. by apply IH. }
      destruct (get_field acc k) as [| | | | s | xs | o'].
      1,2: by apply IH.
      1,2,4: by apply IH.
      * destruct v; by apply IH.
      * destruct (rec (JsObject o') v) as [[w|e]|]; [|done..]. by apply IH.
Qed.

(** The only error of [reduce] is that of the entries of a null or undefined
    value. *)
Lemma reduce_raises fuel :
  forall acc delta e,
    reduce fuel acc delta = Some (Throw e) ->
    e = TypeError "Cannot convert undefined or null to object".
Proof.
  induction fuel as [|fuel IH]; intros acc delta e; [done|]. rewrite reduce_S.
  destruct (Object_entries delta) as [entries|e'] eqn:E.
  - assert (forall fs, reduce_entries (reduce fuel) fs entries = Some (Throw e) ->
                       e = TypeError "Cannot convert undefined or null to object")
      as Hent.
    { clear E. induction entries as [|[k v] rest IHr]; intros fs; simpl; [done|].
      destruct (inherited fs k) as [[|]|]; [apply IHr| |].
      { destruct (reduce fuel Object_prototype v) as [[w|e0]|] eqn:R;
          [apply IHr | | done].
        intros [= ->]. by eapply IH. }
      destruct (get_field fs k) as [| | | | s | xs | o]; try apply IHr.
      - destruct v; apply IHr.
      - destruct (reduce fuel (JsObject o) v) as [[w|e0]|] eqn:R;
          [apply IHr | | done].
        intros [= ->]. by eapply IH. }
    destruct (reduce_entries (reduce fuel) (spread acc) entries)
      as [[fs|e0]|] eqn:R; [done| |done].
    intros [= ->]. by eapply Hent.
  - destruct delta; simpl in E; try done; by intros [= <-]; injection E as <-.
Qed.

Lemma messageReducer_Ok previous item r :
  messageReducer previous item = Ok r ->
  exists c cs fs,
    choices item = c :: cs /\ r = JsObject fs /\
    exists fuel,
      reduce_entries (reduce fuel) (spread previous) (own_properties (delta c))
      = Some (Ok fs).
Proof.
  unfold messageReducer. destruct (choices item) as [|c cs]; [done|].
  rewrite reduce_S.
  destruct (Object_entries (delta c)) as [entries|e] eqn:E; [|done].
  apply Object_entries_Ok in E as ->.
  destruct (reduce_entries _ _ _) as [[fs|e]|] eqn:R; [|done..].
  intros [= <-]. exists c, cs, fs. eauto.
Qed.

(** *** Examples of the merge rules *)

Example messageReducer_concatenates :
  messageReducer (JsObject [("content", JsString "Hi")])
                 (delta_event (JsObject [("content", JsString " there")]))
  = Ok (JsObject [("content", JsString "Hi there")]).
Proof. reflexivity. Qed.

Example messageReducer_nested :
  messageReducer
    (JsObject [("role", JsString "assistant"); ("content", JsNull);
               ("function_call",
                JsObject [("name", JsString "list");
                          ("arguments", JsString "{")])])
    (delta_event
       (JsObject [("function_call", JsObject [("arguments", JsString "}")])]))
  = Ok (JsObject [("role", JsString "assistant"); ("content", JsNull);
                  ("function_call",
                   JsObject [("name", JsString "list");
                             ("arguments", JsString "{}")])]).
Proof. reflexivity. Qed.

Example messageReducer_null_delta :
  messageReducer (JsObject []) (delta_event JsNull)
  = Throw (TypeError "Cannot convert undefined or null to object").
Proof. reflexivity. Qed.

Example messageReducer_no_choice :
  messageReducer (JsObject []) {| choices := [] |}
  = Throw (TypeError "Cannot read properties of undefined (reading 'delta')").
Proof. reflexivity. Qed.

(** C4, as amended.  Let a field of the delta carry a value that mismatches
    in type the value the accumulated message has for that field, which is
    set; the keys of the delta are distinct.  When the merge returns and the
    existing value is not a plain (non-array) object (a string against a
    non-string, a number or a boolean against another type, an array against
    anything), the merged message has the same value for the field as
    [previous].  When the existing value is a plain object, the merge raises
    a [TypeError] if the incoming value is null or undefined; for another
    incoming value, when the merge returns, the field of the merged message
    is the recursive merge of the incoming value into the object. *)
Theorem messageReducer_mismatch_keeps_field previous item c cs key value :
  choices item = c :: cs ->
  NoDup (own_properties (delta c)).*1 ->
  (key, value) ∈ own_properties (delta c) ->
  type_mismatch (get_field (spread previous) key) value = true ->
  (forall r,
     messageReducer previous item = Ok r ->
     (is_plain_object (get_field (spread previous) key) = false ->
      get_prop r key = Ok (get_field (spread previous) key))
     /\ (forall o,
           get_field (spread previous) key = JsObject o ->
           is_nullish value = false
           /\ exists fuel merged,
                reduce fuel (JsObject o) value = Some (Ok merged)
                /\ get_prop r key = Ok merged))
  /\ (is_plain_object (get_field (spread previous) key) = true ->
      is_nullish value = true ->
      messageReducer previous item
      = Throw (TypeError "Cannot convert undefined or null to object")).
Proof.
  intros Hc Hnd Hin Hmis.
  assert (forall r o,
            messageReducer previous item = Ok r ->
            get_field (spread previous) key = JsObject o ->
            exists fuel merged,
              reduce fuel (JsObject o) value = Some (Ok merged)
              /\ get_prop r key = Ok merged) as Hmerged.
  { intros r o Hr Hobj.
    apply messageReducer_Ok in Hr as (c' & cs' & fs & Hc' & -> & fuel & Hred).
    rewrite Hc in Hc'. injection Hc' as <- <-.
    destruct (reduce_entries_merged _ _ _ _ _ _ _ Hnd Hin Hobj Hred)
      as (merged & Hrec & Hget).
    exists fuel, merged. split; [done|]. simpl. by rewrite Hget. }
  assert (forall fuel o merged,
            reduce fuel (JsObject o) value = Some (Ok merged) ->
            is_nullish value = false) as Hnn.
  { intros [|fuel] o merged; [done|]. rewrite reduce_S. by destruct value. }
  split.
  - intros r Hr. split.
    + intros Hobj.
      apply messageReducer_Ok in Hr as (c' & cs' & fs & Hc' & -> & fuel & Hred).
      rewrite Hc in Hc'. injection Hc' as <- <-.
      simpl. f_equal. eapply reduce_entries_kept; eauto.
    + intros o Hobj.
      destruct (Hmerged r o Hr Hobj) as (fuel & merged & Hrec & Hget).
      split; [by eapply Hnn | by exists fuel, merged].
  - intros Hobj Hnull.
    destruct (get_field (spread previous) key) as [| | | | | | o] eqn:E;
      try discriminate Hobj.
    destruct (messageReducer previous item) as [r|e] eqn:Hr.
    + destruct (Hmerged r o eq_refl eq_refl) as (fuel & merged & Hrec & _).
      apply Hnn in Hrec. congruence.
    + f_equal. unfold messageReducer in Hr. rewrite Hc in Hr.
      destruct (reduce_enough_fuel previous (delta c)) as (r0 & Hr0).
      rewrite Hr0 in Hr. subst r0. by eapply reduce_raises.
Qed.

Lemma messageReducer_mismatch_keeps_field_witness :
  get_prop (JsObject [("content", JsString "Hi"); ("tool_calls", JsArray [])])
           "content"
  = Ok (JsString "Hi").
Proof.
  refine (proj1 (proj1 (messageReducer_mismatch_keeps_field
           (JsObject [("content", JsString "Hi"); ("tool_calls", JsArray [])])
           (delta_event
              (JsObject [("content", JsObject [("text", JsString "x")]);
                         ("tool_calls", JsArray [JsNumber 1])]))
           {| delta := JsObject [("content", JsObject [("text", JsString "x")]);
                                 ("tool_calls", JsArray [JsNumber 1])];
              finish_reason := None |}
           [] "content" (JsObject [("text", JsString "x")])
           _ _ _ _)
           (JsObject [("content", JsString "Hi"); ("tool_calls", JsArray [])])
           _) _).
  - reflexivity.
  - simpl. apply NoDup_cons. split.
    + intros H%list_elem_of_singleton. discriminate H.
    + apply NoDup_singleton.
  - simpl. apply elem_of_cons. by left.
  - reflexivity.
  - reflexivity.
  - reflexivity.
Defined.

(** A null value against a plain object: the merge raises. *)
Example messageReducer_object_vs_null :
  messageReducer
    (JsObject [("function_call", JsObject [("name", JsString "get")])])
    (delta_event (JsObject [("function_call", JsNull)]))
  = Throw (TypeError "Cannot convert undefined or null to object").
Proof. reflexivity. Qed.

(** C4, as stated, fails when the existing value is a plain object and the
    delta carries a string: the merge recurses into the object and adds the
    characters of the string as properties ["0"], ["1"], ... *)
Lemma messageReducer_object_vs_string_changes :
  let previous :=
    JsObject [("function_call", JsObject [("name", JsString "get")])] in
  let item := delta_event (JsObject [("function_call", JsString "xy")]) in
  let existing := get_field (spread previous) "function_call" in
  is_nullish existing = false /\
  type_mismatch existing (JsString "xy") = true /\
  exists r merged,
    messageReducer previous item = Ok r /\
    get_prop r "function_call" = Ok merged /\
    get_prop merged "0" = Ok (JsString "x") /\
    get_prop merged "1" = Ok (JsString "y") /\
    get_prop existing "0" = Ok JsUndefined /\
    merged <> existing.
Proof.
  split; [reflexivity|]. split; [reflexivity|].
  eexists _, _. split; [reflexivity|]. split; [reflexivity|].
  repeat split. vm_compute. discriminate.
Qed.

(** ** Accumulation of string-valued deltas *)

Lemma string_app_assoc (a b c : string) : (a ++ b) ++ c = a ++ (b ++ c).
Proof.
  induction a as [|ch a IH]; [reflexivity|].
  change (String ch ((a ++ b) ++ c) = String ch (a ++ (b ++ c))).
  by rewrite IH.
Qed.

Lemma string_app_nil_r (a : string) : a ++ EmptyString = a.
Proof.
  induction a as [|ch a IH]; [reflexivity|].
  change (String ch (a ++ EmptyString) = String ch a). by rewrite IH.
Qed.

Lemma append_fragments_cons existing s frs :
  is_string existing = true \/ existing = JsUndefined ->
  append_fragments existing (s :: frs)
  = append_fragments
      (JsString (match existing with JsString t => t | _ => EmptyString end ++ s))
      frs.
Proof.
  intros _. destruct frs as [|s' frs]; simpl.
  - by rewrite string_app_nil_r.
  - by rewrite string_app_assoc.
Qed.

Lemma append_fragments_app existing frs1 frs2 :
  is_string existing = true \/ existing = JsUndefined ->
  append_fragments existing (frs1 ++ frs2)
  = append_fragments (append_fragments existing frs1) frs2.
Proof.
  revert existing. induction frs1 as [|s frs1 IH]; intros existing Hex; [done|].
  change ((s :: frs1) ++ frs2)%list with (s :: (frs1 ++ frs2))%list.
  rewrite !append_fragments_cons by done. apply IH. by left.
Qed.

Lemma string_fields_get fs key :
  string_fields fs ->
  is_string (get_field fs key) = true \/ get_field fs key = JsUndefined.
Proof.
  induction 1 as [|[k v] fs Hv _ IH]; simpl; [by right|].
  destruct (String.eqb k key); [by left | done].
Qed.

Lemma string_fields_set fs key s :
  string_fields fs -> string_fields (set_field fs key (JsString s)).
Proof.
  induction 1 as [|[k v] fs Hv Hfs IH]; simpl.
  - by repeat constructor.
  - destruct (String.eqb k key); constructor; done.
Qed.

(** No own property has the name of a function of [Object.prototype]. *)
Lemma inherited_function_hidden {A} (acc : list (string * A)) k :
  (forall key, inherited_function key = true -> has_own acc key = false) ->
  inherited_function k = true ->
  inherited acc k = Some InheritedFunction.
Proof. intros Hacc Hk. unfold inherited. by rewrite (Hacc k Hk), Hk. Qed.

Lemma inherited_plain_key {A} (acc : list (string * A)) k :
  inherited_function k = false -> k <> "__proto__" -> inherited acc k = None.
Proof.
  intros Hk Hne. unfold inherited. rewrite Hk.
  destruct (has_own acc k); [done|].
  by apply String.eqb_neq in Hne as ->.
Qed.

(** One delta of string fragments merged into a message of strings: an
    entry named like a function of [Object.prototype] is skipped, every other
    fragment is appended to its field. *)
Lemma reduce_entries_strings rec entries :
  forall acc,
    string_fields acc -> string_fields entries ->
    (forall key, inherited_function key = true -> has_own acc key = false) ->
    "__proto__" ∉ entries.*1 ->
    exists fs,
      reduce_entries rec acc entries = Some (Ok fs) /\ string_fields fs /\
      (forall key, inherited_function key = true -> has_own fs key = false) /\
      forall key,
        inherited_function key = false ->
        get_field fs key
        = append_fragments (get_field acc key) (fragments_of key entries).
Proof.
  induction entries as [|[k v] rest IH]; intros acc Hacc Hent Hown Hproto.
  - exists acc. by repeat split.
  - apply Forall_cons in Hent as [Hv Hrest]. simpl in Hv.
    simpl in Hproto. apply not_elem_of_cons in Hproto as [Hk Hproto].
    destruct v as [| | | | t | |]; try discriminate Hv. simpl.
    destruct (inherited_function k) eqn:Fk.
    { (* the entry is skipped *)
      rewrite (inherited_function_hidden acc k Hown Fk).
      destruct (IH acc) as (fs & -> & Hfs & Hown' & Hget); auto.
      exists fs. repeat split; auto. intros key Fkey. rewrite (Hget key Fkey).
      destruct (String.eqb k key) eqn:E; [|done].
      apply String.eqb_eq in E as ->. congruence. }
    rewrite (inherited_plain_key acc k Fk) by congruence.
    assert (exists new,
      (match get_field acc k with
       | JsUndefined | JsNull =>
           reduce_entries rec (set_field acc k (JsString t)) rest
       | JsString s =>
           reduce_entries rec (set_field acc k (JsString (s ++ t))) rest
       | JsObject o =>
           match rec (JsObject o) (JsString t) with
           | None => None
           | Some (Throw e) => Some (Throw e)
           | Some (Ok r) => reduce_entries rec (set_field acc k r) rest
           end
       | _ => reduce_entries rec acc rest
       end) = reduce_entries rec (set_field acc k (JsString new)) rest
      /\ new = match get_field acc k with JsString s => s | _ => EmptyString end ++ t)
      as (new & -> & Hnew).
    { destruct (string_fields_get acc k Hacc) as [Hs | ->].
      - destruct (get_field acc k); try discriminate Hs. eauto.
      - eauto. }
    destruct (IH (set_field acc k (JsString new)))
      as (fs & -> & Hfs & Hown' & Hget); [by apply string_fields_set | done | | done |].
    { intros key Fkey. rewrite has_own_set_field, (Hown key Fkey). simpl.
      apply String.eqb_neq. congruence. }
    exists fs. repeat split; [done..|]. intros key Fkey. rewrite (Hget key Fkey).
    destruct (String.eqb k key) eqn:E.
    + apply String.eqb_eq in E as ->. rewrite get_set_field_eq.
      rewrite append_fragments_cons by (by apply string_fields_get).
      by rewrite Hnew.
    + rewrite get_set_field_ne; [done|]. intros ->.
      by rewrite String.eqb_refl in E.
Qed.

Lemma accumulate_strings events :
  forall acc,
    string_fields acc -> Forall string_valued_event events ->
    (forall key, inherited_function key = true -> has_own acc key = false) ->
    Forall (fun event => "__proto__" ∉ delta_keys event) events ->
    exists fs,
      accumulate (JsObject acc) events = Ok (JsObject fs) /\
      (forall key, inherited_function key = true -> has_own fs key = false) /\
      forall key,
        inherited_function key = false ->
        get_field fs key
        = append_fragments (get_field acc key) (fragments key events).
Proof.
  induction events as [|event events IH]; intros acc Hacc Hev Hown Hproto.
  - exists acc. by repeat split.
  - apply Forall_cons in Hev as [(c & cs & dfs & Hc & Hd & Hdfs) Hev].
    apply Forall_cons in Hproto as [Hp Hproto].
    unfold delta_keys in Hp. rewrite Hc, Hd in Hp. simpl in Hp.
    destruct (reduce_entries_strings
                (reduce (Nat.max (depth (JsObject acc)) (depth (delta c))))
                dfs acc Hacc Hdfs Hown Hp) as (fs1 & Hred & Hfs1 & Hown1 & Hget1).
    assert (messageReducer (JsObject acc) event = Ok (JsObject fs1)) as Hmr.
    { unfold messageReducer. rewrite Hc, reduce_S, Hd. simpl.
      rewrite Hd in Hred. simpl in Hred. by rewrite Hred. }
    destruct (IH fs1 Hfs1 Hev Hown1 Hproto) as (fs & Hacc' & Hown' & Hget).
    exists fs. split; [|split; [done|]].
    + simpl. by rewrite Hmr.
    + intros key Fkey. rewrite (Hget key Fkey), (Hget1 key Fkey). simpl.
      rewrite Hc, Hd. simpl.
      symmetry. apply append_fragments_app. by apply string_fields_get.
Qed.

(** C5, as amended.  Folding a stream of deltas whose top-level fields are
    all strings, none of them named [__proto__], into the empty message
    succeeds.  A field whose name is not the name of a function that objects
    inherit from [Object.prototype] is the concatenation, in arrival order,
    of the fragments the deltas carry for it (a field no delta mentions
    stays absent); the fragments of a field with such a name are dropped,
    and the field stays absent. *)
Theorem accumulate_concatenates_fragments events :
  Forall string_valued_event events ->
  Forall (fun event => "__proto__" ∉ delta_keys event) events ->
  exists fs,
    accumulate (JsObject []) events = Ok (JsObject fs) /\
    forall key,
      get_field fs key
      = if inherited_function key then JsUndefined
        else concatenation (fragments key events).
Proof.
  intros Hev Hproto.
  destruct (accumulate_strings events [] (Forall_nil_2 _) Hev) as (fs & Hacc & Hown & Hget);
    [done.. |].
  exists fs. split; [done|]. intros key.
  destruct (inherited_function key) eqn:Fkey.
  - apply has_own_get_field. by apply Hown.
  - rewrite (Hget key Fkey). simpl.
    unfold append_fragments, concatenation. by destruct (fragments key events).
Qed.

Lemma accumulate_concatenates_fragments_witness :
  exists fs,
    accumulate (JsObject [])
      [ delta_event (JsObject [("role", JsString "assistant"); ("content", JsString "Hi")]);
        delta_event (JsObject [("content", JsString " there")]);
        delta_event (JsObject []) ]
    = Ok (JsObject fs) /\
    forall key,
      get_field fs key
      = if inherited_function key then JsUndefined
        else concatenation
          (fragments key
             [ delta_event (JsObject [("role", JsString "assistant"); ("content", JsString "Hi")]);
               delta_event (JsObject [("content", JsString " there")]);
               delta_event (JsObject []) ]).
Proof.
  apply accumulate_concatenates_fragments.
  - repeat apply Forall_cons_2; try apply Forall_nil_2;
      (eexists _, _, _; split; [reflexivity|]; split; [reflexivity|]);
      repeat apply Forall_cons_2; try apply Forall_nil_2; reflexivity.
  - repeat apply Forall_cons_2; try apply Forall_nil_2; unfold delta_keys; simpl;
      rewrite ?not_elem_of_cons; repeat split;
      discriminate || apply not_elem_of_nil.
Defined.

(** C5, as stated, fails for a field named like a member that objects
    inherit from [Object.prototype]: [acc["constructor"]] is a function on
    the empty message, none of the tests of the loop holds for it, and the
    fragment is dropped. *)
Lemma accumulate_drops_inherited_name :
  let events := [ delta_event (JsObject [("constructor", JsString "abc")]) ] in
  Forall string_valued_event events
  /\ concatenation (fragments "constructor" events) = JsString "abc"
  /\ exists fs,
       accumulate (JsObject []) events = Ok (JsObject fs)
       /\ get_field fs "constructor" = JsUndefined
       /\ get_field fs "constructor"
          <> concatenation (fragments "constructor" events).
Proof.
  split; [|split; [reflexivity|]].
  - apply Forall_cons_2; [|apply Forall_nil_2].
    eexists _, _, _. split; [reflexivity|]. split; [reflexivity|].
    by repeat constructor.
  - exists []. split; [reflexivity|]. split; [reflexivity|]. discriminate.
Qed.

Example accumulate_hi_there :
  accumulate (JsObject [])
    [ delta_event (JsObject [("role", JsString "assistant"); ("content", JsString "Hi")]);
      delta_event (JsObject [("content", JsString " there")]);
      delta_event (JsObject []) ]
  = Ok (JsObject [("role", JsString "assistant"); ("content", JsString "Hi there")]).
Proof. reflexivity. Qed.

(** ** The conversation formatter *)

Lemma foldl_push {A B} (f : A -> B) (l : list A) (init : list B) :
  foldl (fun acc x => (acc ++ [f x])%list) init l = (init ++ map f l)%list.
Proof.
  revert init. induction l as [|x l IH]; intros init; simpl.
  - by rewrite app_nil_r.
  - rewrite IH. by rewrite <- app_assoc.
Qed.

Lemma lookup_map {A B} (f : A -> B) (l : list A) (i : nat) :
  map f l !! i = option_map f (l !! i).
Proof.
  revert i. induction l as [|x l IH]; intros [|i]; simpl; auto.
Qed.

Lemma ConversationToChatRequestMessages_map conversation :
  ConversationToChatRequestMessages conversation = map chat_message conversation.
Proof.
  unfold ConversationToChatRequestMessages.
  by rewrite (foldl_push chat_message).
Qed.

Lemma PreparePrompt_eq persona request :
  PreparePrompt persona request
  = (system_message persona :: map chat_message (transcript request)
     ++ if String.eqb (interaction_type request) "reminder_required"
        then [reminder_message] else [])%list.
Proof.
  unfold PreparePrompt.
  rewrite ConversationToChatRequestMessages_map.
  rewrite (foldl_push (fun m => m)), map_id.
  destruct (String.eqb (interaction_type request) "reminder_required"); simpl.
  - done.
  - by rewrite app_nil_r.
Qed.

(** C7.  For a transcript whose turns are spoken by the agent or the user,
    the prompt has one message more than the transcript (two more for a
    reminder), starts with the system message, and its message [i + 1] is
    turn [i] with the content kept, the role [agent] turned into [assistant]
    and the role [user] kept; the two roles have different images. *)
Theorem PreparePrompt_shape persona request :
  Forall (fun turn => u_role turn = "agent" \/ u_role turn = "user")
         (transcript request) ->
  List.length (PreparePrompt persona request)
  = List.length (transcript request) + 1
    + (if String.eqb (interaction_type request) "reminder_required" then 1 else 0)
  /\ PreparePrompt persona request !! 0 = Some (system_message persona)
  /\ (forall i turn,
        transcript request !! i = Some turn ->
        PreparePrompt persona request !! S i
        = Some {| msg_role := if String.eqb (u_role turn) "agent"
                              then "assistant" else u_role turn;
                  msg_content := u_content turn |})
  /\ (forall i, List.length (transcript request) <= i ->
        PreparePrompt persona request !! S i
        = if String.eqb (interaction_type request) "reminder_required"
          then [reminder_message] !! (i - List.length (transcript request))
          else None)
  /\ ("assistant" : string) <> "user".
Proof.
  intros Hroles. rewrite PreparePrompt_eq. repeat split.
  - simpl. rewrite length_app, length_map.
    destruct (String.eqb (interaction_type request) "reminder_required");
      simpl; lia.
  - intros i turn Hi. simpl.
    rewrite lookup_app_l by (rewrite length_map; by eapply lookup_lt_Some).
    rewrite lookup_map, Hi. simpl. unfold chat_message. do 2 f_equal.
    rewrite Forall_forall in Hroles.
    destruct (Hroles turn) as [Hr|Hr];
      [by eapply list_elem_of_lookup_2 | |];
      by rewrite Hr.
  - intros i Hi. simpl.
    rewrite lookup_app_r by (by rewrite length_map).
    rewrite length_map.
    destruct (String.eqb (interaction_type request) "reminder_required");
      [done|]. apply lookup_nil.
  - discriminate.
Qed.

Lemma PreparePrompt_shape_witness :
  List.length (PreparePrompt agentPrompt
            {| req_response_id := 7;
               transcript := [ {| u_role := "agent"; u_content := "Hello" |};
                               {| u_role := "user"; u_content := "a book" |} ];
               interaction_type := "reminder_required" |})
  = 4.
Proof.
  apply (PreparePrompt_shape agentPrompt
           {| req_response_id := 7;
              transcript := [ {| u_role := "agent"; u_content := "Hello" |};
                              {| u_role := "user"; u_content := "a book" |} ];
              interaction_type := "reminder_required" |}).
  simpl. apply Forall_cons_2; [by left|].
  apply Forall_cons_2; [by right|]. apply Forall_nil_2.
Defined.

Example PreparePrompt_reminder :
  map msg_role
    (PreparePrompt agentPrompt
       {| req_response_id := 7;
          transcript := [ {| u_role := "agent"; u_content := "Hello" |};
                          {| u_role := "user"; u_content := "a book" |} ];
          interaction_type := "reminder_required" |})
  = ["system"; "assistant"; "user"; "user"].
Proof. reflexivity. Qed.

(** ** The tool handlers *)

Lemma includes_empty s : includes s EmptyString = true.
Proof. destruct s; reflexivity. Qed.

Lemma filter_all {A} (P : A -> Prop) `{forall x, Decision (P x)} (l : list A) :
  Forall P l -> filter P l = l.
Proof.
  induction 1 as [|x l Hx _ IH]; [done|].
  by rewrite filter_cons_True, IH.
Qed.

(** C10.  [search] with the empty string returns the name and id of every
    book of the dataset, in dataset order. *)
Theorem search_empty_returns_all :
  Tools.search (JsString EmptyString) = JsArray (map Tools.name_and_id Tools.db)
  /\ Tools.search (JsString EmptyString)
     = JsArray
         [ JsObject [("name", JsString "To Kill a Mockingbird"); ("id", JsString "a1")];
           JsObject [("name", JsString "All the Light We Cannot See"); ("id", JsString "a2")];
           JsObject [("name", JsString "Where the Crawdads Sing"); ("id", JsString "a3")] ].
Proof.
  assert (Tools.search (JsString EmptyString)
          = JsArray (map Tools.name_and_id Tools.db)) as Hall.
  { unfold Tools.search. simpl to_string.
    rewrite filter_all; [reflexivity|].
    apply Forall_forall. intros item _. apply includes_empty. }
  split; [exact Hall|]. rewrite Hall. reflexivity.
Qed.

Example search_substring :
  Tools.search (JsString "Light")
  = JsArray [ JsObject [("name", JsString "All the Light We Cannot See");
                        ("id", JsString "a2")] ].
Proof. vm_compute. reflexivity. Qed.

Example list_historical :
  Tools.list (JsString "historical") = JsArray (map Tools.name_and_id Tools.db).
Proof. vm_compute. reflexivity. Qed.

Example get_a2 :
  Tools.get (JsString "a2") = Tools.book_object
    {| Tools.id := "a2"; Tools.name := "All the Light We Cannot See";
       Tools.genre := "historical"; Tools.description := description_a2 |}.
Proof. reflexivity. Qed.

(** C8, as amended.  For an id that matches no book, [get] does not fail: it
    returns [undefined], and a call of the tool through [callFunction]
    succeeds with that result. *)
Theorem get_unknown_id_returns_undefined (id : string) :
  Forall (fun item => Tools.id item <> id) Tools.db ->
  Tools.get (JsString id) = JsUndefined
  /\ forall JSON_parse function_call raw args,
       get_prop function_call "arguments" = Ok raw ->
       JSON_parse (to_string raw) = Ok args ->
       get_prop function_call "name" = Ok (JsString "get") ->
       get_prop args "id" = Ok (JsString id) ->
       callFunction JSON_parse function_call = Ok JsUndefined.
Proof.
  intros Hno.
  assert (Tools.get (JsString id) = JsUndefined) as Hget.
  { unfold Tools.get.
    destruct (List.find _ Tools.db) as [item|] eqn:F; [|done].
    apply List.find_some in F as [Hin Heq]. simpl in Heq.
    apply String.eqb_eq in Heq.
    rewrite Forall_forall in Hno. apply list_elem_of_In in Hin.
    by destruct (Hno item Hin). }
  split; [exact Hget|].
  intros JSON_parse function_call raw args Hraw Hparse Hname Hid.
  unfold callFunction. rewrite Hraw. simpl. rewrite Hparse. simpl.
  rewrite Hname. simpl. rewrite Hid. simpl. by rewrite Hget.
Qed.

Lemma get_unknown_id_returns_undefined_witness :
  Tools.get (JsString "zz") = JsUndefined
  /\ forall JSON_parse function_call raw args,
       get_prop function_call "arguments" = Ok raw ->
       JSON_parse (to_string raw) = Ok args ->
       get_prop function_call "name" = Ok (JsString "get") ->
       get_prop args "id" = Ok (JsString "zz") ->
       callFunction JSON_parse function_call = Ok JsUndefined.
Proof.
  apply (get_unknown_id_returns_undefined "zz").
  repeat apply Forall_cons_2; try apply Forall_nil_2; discriminate.
Defined.

(** C8, as stated, fails: the id ["zz"] matches no book and the handler
    returns a value, [undefined], instead of failing. *)
Lemma get_unknown_id_does_not_fail :
  Forall (fun item => Tools.id item <> "zz") Tools.db
  /\ Tools.get (JsString "zz") = JsUndefined
  /\ callFunction JsonSubset.JSON_parse
       (JsObject [("name", JsString "get");
                  ("arguments", JsString ("{" ++ q "id" ++ ":" ++ q "zz" ++ "}"))])
     = Ok JsUndefined.
Proof.
  split; [|split].
  - repeat apply Forall_cons_2; try apply Forall_nil_2; discriminate.
  - reflexivity.
  - vm_compute. reflexivity.
Qed.

(** ** The drafting cycle *)

Local Close Scope string_scope.

Lemma partial_frames_incomplete request frames :
  partial_frames request frames ->
  Forall (fun frame => content_complete frame = false) frames.
Proof.
  intros H. eapply Forall_impl; [exact H|].
  by intros frame (fragment & -> & _).
Qed.

Lemma partial_frames_app request frames1 frames2 :
  partial_frames request frames1 -> partial_frames request frames2 ->
  partial_frames request (frames1 ++ frames2).
Proof. apply Forall_app_2. Qed.

Lemma frames_of_event_partial request event :
  partial_frames request (frames_of_event request event).
Proof.
  unfold frames_of_event, partial_frames.
  destruct (choices event) as [|c cs]; [constructor|].
  destruct (is_function_call _); [constructor|].
  destruct (negb _); [constructor|].
  destruct (get_prop _ _) as [fragment|e]; [|constructor].
  destruct (truthy fragment) eqn:T; [|constructor].
  apply Forall_cons_2; [|constructor]. by exists fragment.
Qed.

(** One iteration sends the frames of its event when the accumulator
    accepts the event, and nothing otherwise; it never touches the rest of
    the state but the console. *)
Lemma process_event_ws request ls w event ls' w' err :
  process_event request ls w event = (ls', w', err) ->
  ws w' = ws w ++ match messageReducer (message ls) event with
                  | Ok _ => frames_of_event request event
                  | Throw _ => []
                  end
  /\ lastPrintedUserMessage w' = lastPrintedUserMessage w.
Proof.
  unfold process_event, frames_of_event.
  destruct (messageReducer (message ls) event) as [m|e].
  2: { intros [= <- <- <-]. by rewrite app_nil_r. }
  destruct (choices event) as [|c cs].
  { intros [= <- <- <-]. by rewrite app_nil_r. }
  destruct (is_function_call (finish_reason c)).
  { destruct (get_prop m "function_call");
      intros [= <- <- <-]; simpl; by rewrite app_nil_r. }
  destruct (negb (truthy (delta c))).
  { intros [= <- <- <-]; simpl; by rewrite app_nil_r. }
  destruct (get_prop (delta c) "content") as [fragment|e].
  2: { intros [= <- <- <-]. by rewrite app_nil_r. }
  destruct (truthy fragment); simpl;
    intros [= <- <- <-]; simpl; by rewrite ?app_nil_r.
Qed.

Lemma process_events_ws request events failure :
  forall ls w ls' w' err,
    process_events request ls w events failure = (ls', w', err) ->
    (exists frames, ws w' = ws w ++ frames /\ partial_frames request frames)
    /\ lastPrintedUserMessage w' = lastPrintedUserMessage w.
Proof.
  induction events as [|event rest IH]; intros ls w ls' w' err; simpl.
  - intros [= <- <- <-]. split; [|done].
    exists []. split; [by rewrite app_nil_r | constructor].
  - destruct (process_event request ls w event) as [[ls1 w1] [e|]] eqn:E;
      apply process_event_ws in E as [Hws Hlast].
    + intros [= <- <- <-]. split; [|done]. eexists; split; [exact Hws|].
      destruct (messageReducer _ _); [apply frames_of_event_partial | constructor].
    + intros H. apply IH in H as [(frames & Hws' & Hp) Hlast'].
      split; [|congruence]. eexists. split.
      * rewrite Hws', Hws, <- app_assoc. reflexivity.
      * apply partial_frames_app; [|done].
        destruct (messageReducer _ _); [apply frames_of_event_partial | constructor].
Qed.

Lemma process_event_funcCall request ls w event ls' w' err :
  process_event request ls w event = (ls', w', err) ->
  no_function_call_event event ->
  funcCall ls' = funcCall ls.
Proof.
  unfold process_event, no_function_call_event.
  destruct (messageReducer (message ls) event) as [m|e];
    [|by intros [= <- <- <-]].
  destruct (choices event) as [|c cs]; [by intros [= <- <- <-]|].
  intros H Hno. rewrite Hno in H.
  destruct (negb (truthy (delta c))); [by injection H as <- <- <-|].
  destruct (get_prop (delta c) "content") as [fragment|e];
    [|by injection H as <- <- <-].
  destruct (negb (truthy fragment)); by injection H as <- <- <-.
Qed.

Lemma process_events_funcCall request events failure :
  forall ls w ls' w' err,
    process_events request ls w events failure = (ls', w', err) ->
    Forall no_function_call_event events ->
    funcCall ls' = funcCall ls.
Proof.
  induction events as [|event rest IH]; intros ls w ls' w' err; simpl.
  - by intros [= <- <- <-].
  - intros H [Hev Hrest]%Forall_cons.
    destruct (process_event request ls w event) as [[ls1 w1] [e|]] eqn:E;
      apply process_event_funcCall in E; try done.
    + by injection H as <- <- <-.
    + apply IH in H; [congruence | done].
Qed.

(** What the [try] block with its [catch] leaves behind: partial frames
    only. *)
Lemma stream_phase_ws create request w ls w' :
  stream_phase create request w = (ls, w') ->
  (exists frames, ws w' = ws w ++ frames /\ partial_frames request frames)
  /\ lastPrintedUserMessage w' = lastPrintedUserMessage w.
Proof.
  unfold stream_phase.
  destruct (create (PreparePrompt agentPrompt request)) as [e|events failure].
  - intros [= <- <-]. simpl. split; [|done].
    exists []. split; [by rewrite app_nil_r | constructor].
  - destruct (process_events request initial_locals w events failure)
      as [[ls1 w1] err] eqn:E.
    apply process_events_ws in E as [(frames & Hws & Hp) Hlast].
    destruct err; intros [= <- <-]; simpl; split; eauto.
Qed.

Lemma stream_phase_no_tool_call create request w ls w' :
  stream_phase create request w = (ls, w') ->
  no_tool_call (create (PreparePrompt agentPrompt request)) ->
  funcCall ls = JsNull.
Proof.
  unfold stream_phase.
  destruct (create (PreparePrompt agentPrompt request)) as [e|events failure].
  - by intros [= <- <-].
  - destruct (process_events request initial_locals w events failure)
      as [[ls1 w1] err] eqn:E.
    intros H Hno. apply process_events_funcCall in E; [|done].
    destruct err; injection H as <- <-; done.
Qed.

Lemma print_user_message_ws request w : ws (print_user_message request w) = ws w.
Proof.
  unfold print_user_message. destruct (lastUserMessage request); [|done].
  by destruct (bool_decide _).
Qed.

Lemma process_events_failure request events e :
  forall ls w ls' w' err,
    process_events request ls w events (Some e) = (ls', w', err) ->
    is_Some err.
Proof.
  induction events as [|event rest IH]; intros ls w ls' w' err; simpl.
  - intros [= <- <- <-]. by eexists.
  - destruct (process_event request ls w event) as [[ls1 w1] [e'|]].
    + intros [= <- <- <-]. by eexists.
    + apply IH.
Qed.

Lemma stream_phase_logs_failure create request w ls w' :
  stream_phase create request w = (ls, w') ->
  stream_fails (create (PreparePrompt agentPrompt request)) ->
  exists e, last (console w') = Some (LogStreamError e).
Proof.
  unfold stream_phase.
  destruct (create (PreparePrompt agentPrompt request)) as [e|events failure].
  - intros [= <- <-] _. exists e. simpl. apply last_snoc.
  - intros H [e ->].
    destruct (process_events request initial_locals w events (Some e))
      as [[ls1 w1] err] eqn:E.
    apply process_events_failure in E as [e' ->].
    injection H as <- <-. exists e'. simpl. apply last_snoc.
Qed.

(** The same facts for the plain client. *)
Lemma plain_process_event_ws request cm w event cm' w' err :
  LlmOpenai.process_event request cm w event = (cm', w', err) ->
  exists frames, ws w' = ws w ++ frames /\ partial_frames request frames
                 /\ console w' = console w.
Proof.
  unfold LlmOpenai.process_event.
  assert (exists frames, ws w = ws w ++ frames /\ partial_frames request frames
                         /\ console w = console w) as Hnone.
  { exists []. split; [by rewrite app_nil_r|]. split; [constructor | done]. }
  destruct (choices event) as [|c cs]; [by intros [= <- <- <-]|].
  destruct (negb (truthy (delta c))); [by intros [= <- <- <-]|].
  destruct (get_prop (delta c) "content") as [fragment|e];
    [|by intros [= <- <- <-]].
  destruct (truthy fragment) eqn:T; simpl; intros [= <- <- <-]; [|done].
  exists [partial_frame request fragment]. split; [done|]. split; [|done].
  apply Forall_cons_2; [|constructor]. by exists fragment.
Qed.

Lemma plain_process_events_ws request events failure :
  forall cm w cm' w' err,
    LlmOpenai.process_events request cm w events failure = (cm', w', err) ->
    (exists frames, ws w' = ws w ++ frames /\ partial_frames request frames)
    /\ console w' = console w
    /\ (is_Some failure -> is_Some err).
Proof.
  induction events as [|event rest IH]; intros cm w cm' w' err; simpl.
  - intros [= <- <- <-]. split; [|done].
    exists []. split; [by rewrite app_nil_r | constructor].
  - destruct (LlmOpenai.process_event request cm w event)
      as [[cm1 w1] [e|]] eqn:E;
      apply plain_process_event_ws in E as (frames & Hws & Hp & Hc).
    + intros [= <- <- <-]. split; [eauto|]. split; [done|]. by eexists.
    + intros H. apply IH in H as [(frames' & Hws' & Hp') [Hc' Hf]].
      split; [|split; [congruence | done]].
      exists (frames ++ frames'). split.
      * by rewrite Hws', Hws, <- app_assoc.
      * by apply partial_frames_app.
Qed.

(** C2.  A cycle that is not [update_only] and in which no event announces a
    function call fulfils its promise and sends, after its partial frames,
    exactly one complete frame, with the empty content; this holds for every
    stream, also one without content, one that is rejected and one that
    raises (the error is then logged).  The plain client does so on every
    stream. *)
Theorem cycle_without_tool_call_closes JSON_parse create request w :
  interaction_type request <> "update_only" ->
  no_tool_call (create (PreparePrompt agentPrompt request)) ->
  closes (DraftResponse JSON_parse create request w) request w
         (create (PreparePrompt agentPrompt request))
  /\ closes (LlmOpenai.DraftResponse create request w) request w
            (create (PreparePrompt LlmOpenai.agentPrompt request)).
Proof.
  intros Hkind%String.eqb_neq Hno. split.
  - unfold DraftResponse, closes. rewrite Hkind.
    destruct (stream_phase create request (print_user_message request w))
      as [ls w1] eqn:E.
    pose proof (stream_phase_no_tool_call _ _ _ _ _ E Hno) as Hfc.
    pose proof (stream_phase_logs_failure _ _ _ _ _ E) as Hlog.
    apply stream_phase_ws in E as [(frames & Hws & Hp) _].
    unfold finalize. rewrite Hfc. simpl.
    split; [done|]. split; [|split; [done|split; [done|]]].
    + exists frames. split.
      * rewrite Hws, print_user_message_ws. by rewrite <- app_assoc.
      * by eapply partial_frames_incomplete.
    + intros Hf. destruct (Hlog Hf) as (e & He). exists e.
      apply elem_of_app. left. by apply last_Some_elem_of.
  - unfold LlmOpenai.DraftResponse, closes. rewrite Hkind.
    destruct (create (PreparePrompt LlmOpenai.agentPrompt request))
      as [e|events failure]; simpl.
    + split; [done|]. split; [|split; [done|split; [done|]]].
      * exists []. split; [by rewrite print_user_message_ws | constructor].
      * intros _. exists e. apply elem_of_app. left. apply elem_of_app.
        right. apply list_elem_of_singleton. done.
    + destruct (LlmOpenai.process_events request EmptyString
                  (print_user_message request w) events failure)
        as [[cm w1] err] eqn:E.
      apply plain_process_events_ws in E as [(frames & Hws & Hp) [Hc Hf]].
      split; [by destruct err|]. split; [|split; [done|split; [done|]]].
      * exists frames. split.
        -- destruct err; simpl; rewrite Hws, print_user_message_ws;
             by rewrite <- app_assoc.
        -- by eapply partial_frames_incomplete.
      * intros [e' ->]%Hf. exists e'. simpl. apply elem_of_app. left.
        apply elem_of_app. right. by apply list_elem_of_singleton.
Qed.

(** *** Concrete cycles *)

Lemma cycle_without_tool_call_closes_witness :
  closes (DraftResponse JsonSubset.JSON_parse (fun _ => hi_there)
            book_request initial_state)
         book_request initial_state hi_there
  /\ closes (LlmOpenai.DraftResponse (fun _ => hi_there)
               book_request initial_state)
            book_request initial_state hi_there.
Proof.
  apply (cycle_without_tool_call_closes JsonSubset.JSON_parse
           (fun _ => hi_there) book_request initial_state).
  - discriminate.
  - simpl. repeat (apply Forall_cons_2; [reflexivity|]). apply Forall_nil_2.
Defined.

(** Two content fragments and a finish signal: two partial frames, then the
    terminal frame. *)
Example DraftResponse_hi_there :
  let outcome := DraftResponse JsonSubset.JSON_parse (fun _ => hi_there)
                   book_request initial_state in
  snd outcome = Ok tt
  /\ ws (fst outcome)
     = [ {| response_id := 3; content := JsString "Hi";
            content_complete := false; end_call := false |};
         {| response_id := 3; content := JsString " there";
            content_complete := false; end_call := false |};
         {| response_id := 3; content := JsString EmptyString;
            content_complete := true; end_call := false |} ]
  /\ console (fst outcome)
     = [ LogUserSaid "find me a historical book";
         LogFinishReason None; LogFinishReason None;
         LogFinishReason (Some "stop"); LogNoContent;
         LogLlmSaid "Hi there" ]
  /\ lastPrintedUserMessage (fst outcome) = Some "find me a historical book".
Proof. vm_compute. repeat split. Qed.

(** A stream that raises after its first fragment, and one that is rejected:
    the error is logged and the terminal frame is sent. *)
Example DraftResponse_broken_stream :
  let broken := StreamOpened [content_event "Hi"] (Some (Error "socket hang up")) in
  let outcome := DraftResponse JsonSubset.JSON_parse (fun _ => broken)
                   book_request initial_state in
  snd outcome = Ok tt
  /\ ws (fst outcome)
     = [ partial_frame book_request (JsString "Hi"); terminal_frame book_request ]
  /\ LogStreamError (Error "socket hang up") ∈ console (fst outcome).
Proof.
  vm_compute. repeat split.
  do 2 apply list_elem_of_further. apply list_elem_of_here.
Qed.

Example DraftResponse_rejected_stream :
  let outcome := DraftResponse JsonSubset.JSON_parse
                   (fun _ => StreamRejected (Error "401"))
                   book_request initial_state in
  snd outcome = Ok tt /\ ws (fst outcome) = [ terminal_frame book_request ].
Proof. vm_compute. repeat split. Qed.

(** The greeting of a new session. *)
Example BeginMessage_frame :
  ws (BeginMessage initial_state)
  = [ {| response_id := 0; content := JsString beginSentence;
         content_complete := true; end_call := false |} ]
  /\ ws (LlmOpenai.BeginMessage initial_state)
     = [ {| response_id := 0; content := JsString LlmOpenai.beginSentence;
            content_complete := true; end_call := false |} ].
Proof. split; reflexivity. Qed.

(** An [update_only] request sends nothing. *)
Lemma DraftResponse_update_only JSON_parse create request w :
  interaction_type request = "update_only" ->
  DraftResponse JSON_parse create request w
  = (print_user_message request w, Ok tt)
  /\ ws (fst (DraftResponse JSON_parse create request w)) = ws w.
Proof.
  intros H. unfold DraftResponse. rewrite H. simpl.
  split; [done|]. apply print_user_message_ws.
Qed.

(** The scenario of the specification: a call of [list] for the genre
    [historical] sends one incomplete frame with the titles, and no terminal
    frame. *)
Example DraftResponse_list_historical :
  let stream :=
    StreamOpened
      (function_call_events "list"
         [ "{" +:+ q "genre" ; ": " +:+ q "historical" +:+ "}" ]) None in
  let outcome := DraftResponse JsonSubset.JSON_parse (fun _ => stream)
                   book_request initial_state in
  snd outcome = Ok tt
  /\ ws (fst outcome)
     = [ tool_result_frame book_request
           (JsArray (map Tools.name_and_id Tools.db)) ]
  /\ content (tool_result_frame book_request
                (JsArray (map Tools.name_and_id Tools.db)))
     = JsString
         ("The function call result is: [{" +:+ q "name" +:+ ":"
          +:+ q "To Kill a Mockingbird" +:+ "," +:+ q "id" +:+ ":" +:+ q "a1"
          +:+ "},{" +:+ q "name" +:+ ":" +:+ q "All the Light We Cannot See"
          +:+ "," +:+ q "id" +:+ ":" +:+ q "a2" +:+ "},{" +:+ q "name" +:+ ":"
          +:+ q "Where the Crawdads Sing" +:+ "," +:+ q "id" +:+ ":"
          +:+ q "a3" +:+ "}]").
Proof. vm_compute. repeat split. Qed.

(** ** Cycles with a tool call *)

(** The captured call is set only by an event that announces a function
    call. *)
Lemma stream_phase_call_detected create request w ls w' :
  stream_phase create request w = (ls, w') ->
  truthy (funcCall ls) = true ->
  ~ no_tool_call (create (PreparePrompt agentPrompt request)).
Proof.
  intros E Hfc Hno.
  by rewrite (stream_phase_no_tool_call _ _ _ _ _ E Hno) in Hfc.
Qed.

Lemma DraftResponse_unfold JSON_parse create request w ls w1 :
  interaction_type request <> "update_only" ->
  stream_phase create request (print_user_message request w) = (ls, w1) ->
  DraftResponse JSON_parse create request w = finalize JSON_parse request ls w1.
Proof.
  intros Hkind%String.eqb_neq E. unfold DraftResponse. by rewrite Hkind, E.
Qed.

(** *** Function calls as the provider streams them *)

Lemma messageReducer_argument_piece name arguments piece :
  messageReducer (call_message name arguments) (argument_event piece)
  = Ok (call_message name (arguments +:+ piece)).
Proof. reflexivity. Qed.

Lemma messageReducer_finish name arguments reason :
  messageReducer (call_message name arguments) (finish_event reason)
  = Ok (call_message name arguments).
Proof. reflexivity. Qed.

(** The pieces of the argument text are accumulated without any frame, and
    the finish signal captures the call with the whole text. *)
Lemma process_events_function_call request name pieces :
  forall ls w arguments,
    message ls = call_message name arguments ->
    exists ls' w',
      process_events request ls w
        (map argument_event pieces ++ [finish_event "function_call"]) None
      = (ls', w', None)
      /\ ws w' = ws w
      /\ funcCall ls'
         = function_call_value name (arguments +:+ concat_fragments pieces).
Proof.
  induction pieces as [|piece pieces IH]; intros ls w arguments Hm.
  - cbn [map app process_events]. unfold process_event.
    rewrite Hm, messageReducer_finish. simpl.
    eexists _, _. split; [reflexivity|]. split; [reflexivity|]. simpl.
    by rewrite string_app_nil_r.
  - cbn [map app process_events]. unfold process_event at 1.
    rewrite Hm, messageReducer_argument_piece. simpl.
    edestruct IH as (ls' & w' & -> & Hws & Hfc); [reflexivity|].
    eexists _, _. split; [reflexivity|]. split; [by rewrite Hws|].
    rewrite Hfc. simpl. by rewrite string_app_assoc.
Qed.

(** X18.  The outcome of a cycle on a stream that carries a function call
    with its argument text in pieces: the call executed is the one with the
    pieces put together in order, and what [callFunction] makes of it
    decides between the tool-result frame and a rejected promise. *)
Lemma DraftResponse_function_call_stream JSON_parse create request w name pieces :
  interaction_type request <> "update_only" ->
  create (PreparePrompt agentPrompt request)
  = StreamOpened (function_call_events name pieces) None ->
  let call := function_call_value name (concat_fragments pieces) in
  let out := DraftResponse JSON_parse create request w in
  match callFunction JSON_parse call with
  | Ok result =>
      out.2 = Ok tt /\ ws out.1 = ws w ++ [tool_result_frame request result]
  | Throw e => out.2 = Throw e /\ ws out.1 = ws w
  end.
Proof.
  intros Hkind%String.eqb_neq Hcreate. simpl.
  unfold DraftResponse, stream_phase. rewrite Hkind, Hcreate.
  unfold function_call_events.
  change (process_events request initial_locals (print_user_message request w)
            (delta_event (call_message name EmptyString)
             :: map argument_event pieces ++ [finish_event "function_call"])
            None)
    with (match process_event request initial_locals
                  (print_user_message request w)
                  (delta_event (call_message name EmptyString)) with
          | (ls', w', Some e) => (ls', w', Some e)
          | (ls', w', None) =>
              process_events request ls' w'
                (map argument_event pieces ++ [finish_event "function_call"])
                None
          end).
  unfold process_event at 1. simpl.
  edestruct (process_events_function_call request name pieces)
    as (ls' & w' & -> & Hws & Hfc); [reflexivity|].
  simpl in Hws, Hfc. rewrite print_user_message_ws in Hws.
  unfold finalize. rewrite Hfc. simpl.
  destruct (callFunction JSON_parse _) as [result|e]; simpl;
    rewrite Hws; done.
Qed.

(** C1, as amended.  In a cycle whose captured function call is set when the
    stream phase ends (an event announced a function call while the
    accumulated message had a [function_call] value), no complete frame is
    sent: the cycle sends its partial frames and then, if [callFunction]
    returns, the one tool-result frame, which is incomplete; if
    [callFunction] raises, nothing more is sent and the promise is
    rejected. *)
Theorem cycle_with_tool_call JSON_parse create request w ls w1 :
  interaction_type request <> "update_only" ->
  stream_phase create request (print_user_message request w) = (ls, w1) ->
  truthy (funcCall ls) = true ->
  let out := DraftResponse JSON_parse create request w in
  ~ no_tool_call (create (PreparePrompt agentPrompt request))
  /\ Forall (fun frame => content_complete frame = false)
            (drop (List.length (ws w)) (ws out.1))
  /\ exists partials,
       partial_frames request partials
       /\ match callFunction JSON_parse (funcCall ls) with
          | Ok result =>
              out.2 = Ok tt
              /\ ws out.1 = ws w ++ partials ++ [tool_result_frame request result]
          | Throw e =>
              out.2 = Throw e /\ ws out.1 = ws w ++ partials
          end.
Proof.
  intros Hkind E Hfc out. split; [by eapply stream_phase_call_detected|].
  unfold out. rewrite (DraftResponse_unfold _ _ _ _ _ _ Hkind E).
  apply stream_phase_ws in E as [(partials & Hws & Hp) _].
  rewrite print_user_message_ws in Hws.
  unfold finalize. rewrite Hfc.
  destruct (callFunction JSON_parse (funcCall ls)) as [result|e]; simpl.
  - rewrite Hws, <- app_assoc, drop_app_length. split; [|by exists partials].
    apply Forall_app_2; [by eapply partial_frames_incomplete|].
    by apply Forall_cons_2; [|constructor].
  - rewrite Hws, drop_app_length. split; [|by exists partials].
    by eapply partial_frames_incomplete.
Qed.

Lemma cycle_with_tool_call_witness :
  let out := DraftResponse JsonSubset.JSON_parse
               (fun _ => list_historical_stream) book_request initial_state in
  ~ no_tool_call list_historical_stream
  /\ Forall (fun frame => content_complete frame = false)
            (drop (List.length (ws initial_state)) (ws out.1))
  /\ exists partials,
       partial_frames book_request partials
       /\ out.2 = Ok tt
       /\ ws out.1 = ws initial_state ++ partials
                     ++ [tool_result_frame book_request
                           (JsArray (map Tools.name_and_id Tools.db))].
Proof.
  apply (cycle_with_tool_call JsonSubset.JSON_parse
           (fun _ => list_historical_stream) book_request initial_state
           (fst (stream_phase (fun _ => list_historical_stream) book_request
                   (print_user_message book_request initial_state)))
           (snd (stream_phase (fun _ => list_historical_stream) book_request
                   (print_user_message book_request initial_state)))).
  - discriminate.
  - reflexivity.
  - reflexivity.
Defined.

(** C1, as stated, fails: an event can announce a function call while the
    accumulated message has no [function_call]; the captured call is then
    [undefined] and the cycle sends the complete terminal frame. *)
Lemma tool_call_event_without_call_closes :
  let stream := StreamOpened [finish_event "function_call"] None in
  let outcome := DraftResponse JsonSubset.JSON_parse (fun _ => stream)
                   book_request initial_state in
  ~ no_tool_call stream
  /\ ws (fst outcome) = [ terminal_frame book_request ]
  /\ content_complete (terminal_frame book_request) = true.
Proof.
  split; [|split; reflexivity].
  intros H. apply Forall_cons in H as [H _]. discriminate H.
Qed.

(** How [callFunction] fails. *)
Lemma callFunction_parse_error JSON_parse function_call raw e :
  get_prop function_call "arguments" = Ok raw ->
  JSON_parse (to_string raw) = Throw e ->
  callFunction JSON_parse function_call = Throw e.
Proof. intros Hraw Hparse. unfold callFunction. by rewrite Hraw; simpl; rewrite Hparse. Qed.

Lemma callFunction_unknown_tool JSON_parse function_call raw args name :
  get_prop function_call "arguments" = Ok raw ->
  JSON_parse (to_string raw) = Ok args ->
  get_prop function_call "name" = Ok name ->
  name <> JsString "list" -> name <> JsString "search" ->
  name <> JsString "get" ->
  callFunction JSON_parse function_call = Throw (Error "No function found").
Proof.
  intros Hraw Hparse Hname Hl Hs Hg. unfold callFunction.
  rewrite Hraw; simpl; rewrite Hparse; simpl; rewrite Hname; simpl.
  assert (forall s, name <> JsString s -> strict_eq_string s name = false) as Hne.
  { intros s Hs'. destruct name; try done. simpl. apply String.eqb_neq.
    congruence. }
  by rewrite !Hne.
Qed.

Lemma callFunction_null_arguments JSON_parse function_call raw name :
  get_prop function_call "arguments" = Ok raw ->
  JSON_parse (to_string raw) = Ok JsNull ->
  get_prop function_call "name" = Ok (JsString name) ->
  name = "list" \/ name = "search" \/ name = "get" ->
  callFunction JSON_parse function_call
  = Throw (TypeError "Cannot read properties of undefined or null").
Proof.
  intros Hraw Hparse Hname Hcase. unfold callFunction.
  rewrite Hraw; simpl; rewrite Hparse; simpl; rewrite Hname; simpl.
  by destruct Hcase as [->|[->| ->]].
Qed.

(** C3, as amended.  When the execution of the captured tool call fails
    (the argument text does not parse, no handler has the name, or reading
    the argument of the handler fails), the error is not caught: the promise
    of [DraftResponse] is rejected with it.  Nothing is sent after the
    partial frames of the stream phase, neither a tool-result frame nor a
    terminal frame, and the last line on the console is the announcement of
    the call. *)
Theorem tool_failure_rejects_cycle JSON_parse create request w ls w1 e :
  interaction_type request <> "update_only" ->
  stream_phase create request (print_user_message request w) = (ls, w1) ->
  truthy (funcCall ls) = true ->
  callFunction JSON_parse (funcCall ls) = Throw e ->
  DraftResponse JSON_parse create request w
  = (console_log (LogFunctionCall (funcCall ls)) w1, Throw e)
  /\ (exists partials,
        ws (fst (DraftResponse JSON_parse create request w)) = ws w ++ partials
        /\ partial_frames request partials)
  /\ last (console (fst (DraftResponse JSON_parse create request w)))
     = Some (LogFunctionCall (funcCall ls)).
Proof.
  intros Hkind E Hfc Hthrow.
  rewrite (DraftResponse_unfold _ _ _ _ _ _ Hkind E).
  unfold finalize. rewrite Hfc, Hthrow. simpl. split; [done|]. split.
  - apply stream_phase_ws in E as [(partials & Hws & Hp) _].
    rewrite print_user_message_ws in Hws. eauto.
  - apply last_snoc.
Qed.

Lemma tool_failure_rejects_cycle_witness :
  snd (DraftResponse JsonSubset.JSON_parse
         (fun _ => truncated_arguments_stream) book_request initial_state)
  = Throw (SyntaxError "Unexpected token or end of JSON input")
  /\ ws (fst (DraftResponse JsonSubset.JSON_parse
                (fun _ => truncated_arguments_stream) book_request
                initial_state))
     = [].
Proof.
  destruct (tool_failure_rejects_cycle JsonSubset.JSON_parse
              (fun _ => truncated_arguments_stream) book_request initial_state
              (fst (stream_phase (fun _ => truncated_arguments_stream)
                      book_request
                      (print_user_message book_request initial_state)))
              (snd (stream_phase (fun _ => truncated_arguments_stream)
                      book_request
                      (print_user_message book_request initial_state)))
              (SyntaxError "Unexpected token or end of JSON input"))
    as (Hout & _ & _).
  - discriminate.
  - reflexivity.
  - reflexivity.
  - reflexivity.
  - rewrite Hout. split; reflexivity.
Defined.

(** C3, as stated, fails: with an argument text that does not parse, with a
    name without handler, and with the argument text [null], the promise of
    [DraftResponse] is rejected instead of fulfilled. *)
Lemma tool_failure_is_not_caught :
  let run stream :=
    snd (DraftResponse JsonSubset.JSON_parse (fun _ => stream)
           book_request initial_state) in
  run truncated_arguments_stream
  = Throw (SyntaxError "Unexpected token or end of JSON input")
  /\ run (StreamOpened (function_call_events "borrow" ["{}"]) None)
     = Throw (Error "No function found")
  /\ run (StreamOpened (function_call_events "get" ["null"]) None)
     = Throw (TypeError "Cannot read properties of undefined or null")
  /\ run truncated_arguments_stream <> Ok tt.
Proof. vm_compute. repeat split. discriminate. Qed.

(** ** Emission around the function-call event *)




(** ** The accumulator does not write to existing objects *)

Lemma heap_alloc_fresh (h : Heap.heap) o : h !! (Heap.alloc h o).1 = None.
Proof. simpl. apply not_elem_of_dom, is_fresh. Qed.

Lemma heap_alloc_extends (h : Heap.heap) o : h ⊆ (Heap.alloc h o).2.
Proof. simpl. apply insert_subseteq, not_elem_of_dom, is_fresh. Qed.

Lemma heap_write_extends (h0 h : Heap.heap) acc key v :
  h0 ⊆ h -> h0 !! acc = None -> h0 ⊆ Heap.write h acc key v.
Proof. intros Hsub Hacc. unfold Heap.write. by apply insert_subseteq_r. Qed.

(** The loop writes to the copy only: a store without the copy that is
    contained in the current store stays contained in it. *)
Lemma heap_reduce_entries_extends rec :
  (forall (h : Heap.heap) a d, h ⊆ (rec h a d).1) ->
  forall entries (h0 h : Heap.heap) acc,
    h0 ⊆ h -> h0 !! acc = None ->
    h0 ⊆ (Heap.reduce_entries rec h acc entries).1.
Proof.
  intros Hrec entries.
  induction entries as [|[key v] rest IH]; intros h0 h acc Hsub Hacc; simpl;
    [done|].
  destruct (inherited (Heap.fields_at h acc) key) as [[|]|].
  { by apply IH. }
  { pose proof (Hrec h Heap.ObjectPrototype v) as Hext.
    destruct (rec h Heap.ObjectPrototype v) as [h' [[res|e]|]]; simpl in *.
    - apply IH; [|done]. by etrans.
    - by etrans.
    - by etrans. }
  destruct (Heap.get_field (Heap.fields_at h acc) key) as [| | | | s | r |].
  1,2: by apply IH; [apply heap_write_extends|].
  1,2: by apply IH.
  - destruct v; try (by apply IH). by apply IH; [apply heap_write_extends|].
  - destruct (h !! r) as [[fs|xs]|]; try (by apply IH).
    pose proof (Hrec h (Heap.Ref r) v) as Hext.
    destruct (rec h (Heap.Ref r) v) as [h' [[res|e]|]]; simpl in *.
    + apply IH; [|done]. apply heap_write_extends; [|done]. by etrans.
    + by etrans.
    + by etrans.
  - pose proof (Hrec h Heap.ObjectPrototype v) as Hext.
    destruct (rec h Heap.ObjectPrototype v) as [h' [[res|e]|]]; simpl in *.
    + apply IH; [|done]. apply heap_write_extends; [|done]. by etrans.
    + by etrans.
    + by etrans.
Qed.

Lemma heap_reduce_extends fuel :
  forall (h : Heap.heap) acc delta, h ⊆ (Heap.reduce fuel h acc delta).1.
Proof.
  induction fuel as [|fuel IH]; intros h acc delta; [done|].
  simpl.
  set (l := fresh (dom h)).
  set (h1 := <[l := Heap.Obj (Heap.own_properties h acc)]> h).
  assert (h ⊆ h1) as Hh1 by apply (heap_alloc_extends h).
  assert (h !! l = None) as Hl by apply (heap_alloc_fresh h (Heap.Obj [])).
  pose proof (heap_reduce_entries_extends (Heap.reduce fuel) IH
                (Heap.own_properties h1 delta) h h1 l Hh1 Hl) as Hloop.
  destruct (Heap.reduce_entries (Heap.reduce fuel) h1 l
              (Heap.own_properties h1 delta)) as [h' [[u|e]|]];
    destruct delta; done.
Qed.

(** A call that returns gives a reference to an object that did not exist
    before. *)
Lemma heap_reduce_result_fresh fuel (h : Heap.heap) acc delta h' v :
  Heap.reduce fuel h acc delta = (h', Some (Ok v)) ->
  exists l, v = Heap.Ref l /\ h !! l = None.
Proof.
  destruct fuel as [|fuel]; [done|]. simpl.
  set (l := fresh (dom h)).
  assert (h !! l = None) as Hl by apply (heap_alloc_fresh h (Heap.Obj [])).
  destruct (Heap.reduce_entries _ _ _ _) as [h1 [[u|e]|]];
    destruct delta; intros [= <- <-]; eauto.
Qed.

(** C9.  Every object of the store before a call of [messageReducer] is in
    the store after the call with the same content, whatever the call
    returns: [previous], the objects nested in it, and the objects of the
    delta are not written to.  What the call returns is not one of these
    objects but a new one. *)
Theorem messageReducer_preserves_previous fuel (h : Heap.heap) previous deltas l o :
  h !! l = Some o ->
  let out := Heap.messageReducer fuel h previous deltas in
  out.1 !! l = Some o /\ out.2 <> Some (Ok (Heap.Ref l)).
Proof.
  intros Hl. unfold Heap.messageReducer. destruct deltas as [|delta deltas].
  - done.
  - simpl. split.
    + by eapply lookup_weaken; [|apply heap_reduce_extends].
    + destruct (Heap.reduce fuel h previous delta) as [h' r] eqn:E. simpl.
      intros ->. apply heap_reduce_result_fresh in E as (l' & [= <-] & Hfresh).
      congruence.
Qed.

Lemma messageReducer_preserves_previous_witness :
  let out := Heap.messageReducer 2 nested_store (Heap.Ref 0) [Heap.Ref 2] in
  out.1 !! 1
  = Some (Heap.Obj [("name", Heap.Str "list"); ("arguments", Heap.Str "{")])
  /\ out.2 <> Some (Ok (Heap.Ref 1)).
Proof.
  apply (messageReducer_preserves_previous 2 nested_store (Heap.Ref 0)
           [Heap.Ref 2] 1).
  reflexivity.
Defined.

(** The result of that call is a new object that refers to a new nested
    object; the two objects of [previous] are as before. *)
Example messageReducer_copies_nested :
  let out := Heap.messageReducer 2 nested_store (Heap.Ref 0) [Heap.Ref 2] in
  out.2 = Some (Ok (Heap.Ref 4))
  /\ out.1 !! 4 = Some (Heap.Obj [("role", Heap.Str "assistant");
                                  ("function_call", Heap.Ref 5)])
  /\ out.1 !! 5 = Some (Heap.Obj [("name", Heap.Str "list");
                                  ("arguments", Heap.Str "{}")])
  /\ out.1 !! 0 = nested_store !! 0
  /\ out.1 !! 1 = nested_store !! 1.
Proof. vm_compute. repeat split. Qed.

(** ** The store model and the tree model agree *)

Lemma Forall2_Forall_r {A B} (R R' : A -> B -> Prop) xs ys :
  Forall (fun y => forall x, R x y -> R' x y) ys ->
  Forall2 R xs ys -> Forall2 R' xs ys.
Proof.
  intros Hall H2. induction H2 as [|x y xs ys Hxy _ IH]; [constructor|].
  apply Forall_cons in Hall as [Hy Hall]. constructor; auto.
Qed.

Lemma repr_weaken (h h' : Heap.heap) hv v :
  h ⊆ h' -> Heap.repr h hv v -> Heap.repr h' hv v.
Proof.
  intros Hsub. revert hv.
  induction v as [| | b | n | s | xs IH | fs IH] using JsValue_ind;
    intros hv Hr; inversion Hr; subst; try constructor.
  - eapply Heap.repr_array; [by eapply lookup_weaken|].
    eapply Forall2_Forall_r; [|done].
    eapply Forall_impl; [exact IH|]. auto.
  - eapply Heap.repr_object; [by eapply lookup_weaken|].
    eapply Forall2_Forall_r; [|done].
    eapply Forall_impl; [exact IH|]. simpl. intros kv Hkv hkv [? ?]. auto.
Qed.

Lemma fields_repr_weaken (h h' : Heap.heap) hfs fs :
  h ⊆ h' -> fields_repr h hfs fs -> fields_repr h' hfs fs.
Proof.
  intros Hsub H. eapply Forall2_impl; [exact H|]. intros hkv kv [? ?].
  split; [done|]. by eapply repr_weaken.
Qed.

Lemma fields_repr_get (h : Heap.heap) hfs fs key :
  fields_repr h hfs fs ->
  Heap.repr h (Heap.get_field hfs key) (get_field fs key).
Proof.
  induction 1 as [|[hk hv] [k v] hfs fs [Hk Hv] _ IH]; simpl; [constructor|].
  simpl in Hk, Hv. subst hk. by destruct (String.eqb k key).
Qed.

Lemma fields_repr_set (h : Heap.heap) hfs fs key hv v :
  fields_repr h hfs fs -> Heap.repr h hv v ->
  fields_repr h (set_field hfs key hv) (set_field fs key v).
Proof.
  intros Hfs Hv.
  induction Hfs as [|[hk hw] [k w] hfs fs [Hk Hw] Hfs IH]; simpl.
  - by repeat constructor.
  - simpl in Hk, Hw. subst hk.
    destruct (String.eqb k key); constructor; auto.
Qed.

Lemma indexed_repr (h : Heap.heap) hxs xs i :
  Forall2 (Heap.repr h) hxs xs ->
  fields_repr h (Heap.indexed_from i hxs) (indexed_from i xs).
Proof.
  intros H. revert i. induction H as [|hx x hxs xs Hx _ IH]; intros i; simpl.
  - constructor.
  - apply Forall2_cons. split; [by split | apply IH].
Qed.

Lemma chars_repr (h : Heap.heap) s :
  Forall2 (Heap.repr h) (Heap.chars s) (chars s).
Proof.
  unfold Heap.chars, chars.
  induction (list_ascii_of_string s) as [|c cs IH]; simpl; constructor;
    [constructor | done].
Qed.

Lemma own_properties_repr (hb h : Heap.heap) hv v :
  hb ⊆ h -> Heap.repr hb hv v ->
  fields_repr hb (Heap.own_properties h hv) (own_properties v).
Proof.
  intros Hsub Hr. inversion Hr; subst; simpl; try constructor.
  - apply indexed_repr, chars_repr.
  - rewrite (lookup_weaken _ _ _ _ H Hsub). by apply indexed_repr.
  - by rewrite (lookup_weaken _ _ _ _ H Hsub).
Qed.

Lemma fields_repr_inherited (h : Heap.heap) hfs fs key :
  fields_repr h hfs fs -> inherited hfs key = inherited fs key.
Proof.
  intros Hfs. unfold inherited.
  assert (has_own hfs key = has_own fs key) as ->; [|done].
  induction Hfs as [|[hk hv] [k v] hfs fs [Hk _] _ IH]; simpl; [done|].
  simpl in Hk. subst hk. by rewrite IH.
Qed.

Lemma heap_reduce_entries_sim fuel :
  (forall (hb h : Heap.heap) ha hd a d r,
     hb ⊆ h -> Heap.repr hb ha a -> Heap.repr hb hd d ->
     reduce fuel a d = Some r ->
     simulates hb h (Heap.reduce fuel h ha hd) r) ->
  forall hentries entries (hb h : Heap.heap) l hfs fs r,
    hb ⊆ h -> hb !! l = None -> h !! l = Some (Heap.Obj hfs) ->
    fields_repr hb hfs fs -> fields_repr hb hentries entries ->
    reduce_entries (reduce fuel) fs entries = Some r ->
    loop_simulates hb h l
      (Heap.reduce_entries (Heap.reduce fuel) h l hentries) r.
Proof.
  intros Hrec hentries entries hb h l hfs fs r Hsub Hl Hobj Hfs Hent.
  revert hentries hb h hfs fs Hsub Hl Hobj Hfs Hent.
  induction entries as [|[key v] entries IH];
    intros hentries hb h hfs fs Hsub Hl Hobj Hfs Hent;
    inversion Hent as [|[hk hv] kv hentries' entries' [Hk Hv] Hent'];
    subst; simpl.
  { intros [= <-]. exists (Ok tt), hb. repeat split; auto. by exists hfs. }
  simpl in Hk, Hv. subst hk.
  assert (Heap.fields_at h l = hfs) as Hat by (unfold Heap.fields_at; by rewrite Hobj).
  rewrite Hat, (fields_repr_inherited hb hfs fs key Hfs).
  (* the step that stores [hw], standing for [w], under [key] *)
  assert (forall hw w,
            Heap.repr hb hw w ->
            reduce_entries (reduce fuel) (set_field fs key w) entries = Some r ->
            loop_simulates hb h l
              (Heap.reduce_entries (Heap.reduce fuel) (Heap.write h l key hw)
                 l hentries') r) as Hstore.
  { intros hw w Hw Hred.
    destruct (IH hentries' hb (Heap.write h l key hw) (set_field hfs key hw)
                (set_field fs key w)) as (hr & hb' & H1 & H2 & H3 & H4 & H5 & H6);
      auto.
    - by apply heap_write_extends.
    - unfold Heap.write. by rewrite Hat, lookup_insert_eq.
    - by apply fields_repr_set.
    - exists hr, hb'. repeat split; auto.
      intros x Hx Hxh. apply H5; [done|].
      unfold Heap.write. rewrite dom_insert. set_solver. }
  (* the step that merges the value into [ha], standing for [a], and stores
     the merge under [key] or, for the accessor, only goes on *)
  assert (forall ha a (store : bool),
            Heap.repr hb ha a ->
            match reduce fuel a v with
            | None => None
            | Some (Throw e) => Some (Throw e)
            | Some (Ok res) =>
                reduce_entries (reduce fuel)
                  (if store then set_field fs key res else fs) entries
            end = Some r ->
            loop_simulates hb h l
              (match Heap.reduce fuel h ha hv with
               | (h', None) => (h', None)
               | (h', Some (Throw e)) => (h', Some (Throw e))
               | (h', Some (Ok res)) =>
                   Heap.reduce_entries (Heap.reduce fuel)
                     (if store then Heap.write h' l key res else h') l hentries'
               end) r) as Hcall.
  { intros ha a store Ha.
    destruct (reduce fuel a v) as [r0'|] eqn:Hpure; [|done].
    destruct (Hrec hb h ha hv a v r0' Hsub Ha Hv Hpure)
      as (hr1 & hb1 & Hout & Hb1 & Hb1h & Hdom1 & Hres1).
    pose proof (heap_reduce_extends fuel h ha hv) as Hext.
    destruct (Heap.reduce fuel h ha hv) as [h1 o1]. simpl in Hout, Hb1h, Hext.
    subst o1.
    assert (hb1 !! l = None) as Hl1.
    { apply not_elem_of_dom. intros Hx. apply Hdom1 in Hx.
      - by apply not_elem_of_dom in Hl.
      - apply elem_of_dom. by eexists. }
    destruct hr1 as [hres|e1], r0' as [res|e0]; simpl in Hres1; try done.
    - (* the recursive call returned *)
      intros Hred.
      assert (Heap.fields_at h1 l = hfs) as Hat1.
      { unfold Heap.fields_at. by rewrite (lookup_weaken _ _ _ _ Hobj Hext). }
      destruct store.
      + destruct (IH hentries' hb1 (Heap.write h1 l key hres)
                    (set_field hfs key hres) (set_field fs key res))
          as (hr & hb' & H1 & H2 & H3 & H4 & H5 & H6); auto.
        * by apply heap_write_extends.
        * unfold Heap.write. by rewrite Hat1, lookup_insert_eq.
        * apply fields_repr_set; [|done]. by eapply fields_repr_weaken.
        * by eapply fields_repr_weaken.
        * exists hr, hb'. repeat split; auto.
          -- by etrans.
          -- intros x Hx Hxh. apply Hdom1; [|done]. apply H5; [done|].
             unfold Heap.write. rewrite dom_insert.
             apply subseteq_dom in Hext. set_solver.
      + destruct (IH hentries' hb1 h1 hfs fs)
          as (hr & hb' & H1 & H2 & H3 & H4 & H5 & H6); auto.
        * by eapply lookup_weaken.
        * by eapply fields_repr_weaken.
        * by eapply fields_repr_weaken.
        * exists hr, hb'. repeat split; auto.
          -- by etrans.
          -- intros x Hx Hxh. apply Hdom1; [|done]. apply H5; [done|].
             apply subseteq_dom in Hext. set_solver.
    - (* the recursive call raised *)
      intros [= <-]. subst e1. exists (Throw e0), hb1. simpl.
      repeat split; auto. }
  destruct (inherited fs key) as [[|]|].
  { by eapply (IH hentries' hb h _ fs). }
  { apply (Hcall Heap.ObjectPrototype Object_prototype false). constructor. }
  pose proof (fields_repr_get hb hfs fs key Hfs) as Hget.
  inversion Hget as [Hh Hp|Hh Hp|b Hh Hp|n Hh Hp|s Hh Hp|Hh Hp
                     |r0 hxs xs Hr0 Hxs Hh Hp|r0 hfo o Hr0 Hfo Hh Hp].
  - by apply Hstore.
  - by apply Hstore.
  - by eapply (IH hentries' hb h _ fs).
  - by eapply (IH hentries' hb h _ fs).
  - inversion Hv; subst; try (by eapply (IH hentries' hb h _ fs)).
    apply Hstore. constructor.
  - apply (Hcall Heap.ObjectPrototype Object_prototype true). constructor.
  - rewrite (lookup_weaken _ _ _ _ Hr0 Hsub). by eapply (IH hentries' hb h _ fs).
  - rewrite (lookup_weaken _ _ _ _ Hr0 Hsub).
    apply (Hcall (Heap.Ref r0) (JsObject o) true). by eapply Heap.repr_object.
Qed.

Lemma outcome_repr_weaken (h h' : Heap.heap) hr r :
  h ⊆ h' -> outcome_repr h hr r -> outcome_repr h' hr r.
Proof.
  intros Hsub. destruct hr, r; simpl; try done. by apply repr_weaken.
Qed.

Lemma heap_reduce_sim fuel :
  forall (hb h : Heap.heap) ha hd a d r,
    hb ⊆ h -> Heap.repr hb ha a -> Heap.repr hb hd d ->
    reduce fuel a d = Some r ->
    simulates hb h (Heap.reduce fuel h ha hd) r.
Proof.
  induction fuel as [|fuel IH]; intros hb h ha hd a d r Hsub Ha Hd; [done|].
  rewrite reduce_S. simpl Heap.reduce.
  set (l := fresh (dom h)).
  set (h1 := <[l := Heap.Obj (Heap.own_properties h ha)]> h).
  assert (h !! l = None) as Hl by apply (heap_alloc_fresh h (Heap.Obj [])).
  assert (hb !! l = None) as Hbl by (by eapply lookup_weaken_None).
  assert (hb ⊆ h1) as Hsub1 by (by apply insert_subseteq_r).
  assert (h1 !! l = Some (Heap.Obj (Heap.own_properties h ha))) as Hobj
    by apply lookup_insert_eq.
  pose proof (own_properties_repr hb h ha a Hsub Ha) as Hfs.
  pose proof (own_properties_repr hb h1 hd d Hsub1 Hd) as Hent.
  assert (forall x, x ∈ dom hb -> x ∈ dom h -> x ∈ dom hb) as Hdom0 by auto.
  (* the delta has entries *)
  assert (Object_entries d = Ok (own_properties d) ->
          match reduce_entries (reduce fuel) (spread a) (own_properties d) with
          | Some (Ok fs) => Some (Ok (JsObject fs))
          | Some (Throw e) => Some (Throw e)
          | None => None
          end = Some r ->
          simulates hb h
            (match Heap.reduce_entries (Heap.reduce fuel) h1 l
                     (Heap.own_properties h1 hd) with
             | (h', None) => (h', None)
             | (h', Some (Throw e)) => (h', Some (Throw e))
             | (h', Some (Ok _)) => (h', Some (Ok (Heap.Ref l)))
             end) r) as Hloop.
  { intros _ Hpure.
    destruct (reduce_entries (reduce fuel) (spread a) (own_properties d))
      as [r'|] eqn:Hred; [|done].
    destruct (heap_reduce_entries_sim fuel IH (Heap.own_properties h1 hd)
                (own_properties d) hb h1 l (Heap.own_properties h ha)
                (spread a) r' Hsub1 Hbl Hobj Hfs Hent Hred)
      as (hr & hb' & Hout & Hb & Hb' & Hl' & Hdom & Hres).
    destruct (Heap.reduce_entries (Heap.reduce fuel) h1 l
                (Heap.own_properties h1 hd)) as [h' o]. simpl in *. subst o.
    assert (forall x, x ∈ dom hb' -> x ∈ dom h -> x ∈ dom hb) as Hdom'.
    { intros x Hx Hxh. apply Hdom; [done|]. unfold h1. rewrite dom_insert.
      set_solver. }
    destruct hr as [u|e'], r' as [fs'|e]; try done.
    - destruct Hres as (hfs' & Hfinal & Hrepr). injection Hpure as <-.
      exists (Ok (Heap.Ref l)), (<[l := Heap.Obj hfs']> hb'). simpl.
      split; [done|]. split; [|split; [|split]].
      + etrans; [exact Hb|]. by apply insert_subseteq.
      + by apply insert_subseteq_l.
      + intros x Hx Hxh. rewrite dom_insert in Hx.
        apply elem_of_union in Hx as [->%elem_of_singleton|Hx];
          [|by apply Hdom'].
        by apply not_elem_of_dom in Hl.
      + eapply Heap.repr_object; [apply lookup_insert_eq|].
        eapply fields_repr_weaken; [|exact Hrepr]. by apply insert_subseteq.
    - subst e'. injection Hpure as <-. exists (Throw e), hb'. simpl.
      repeat split; auto. }
  inversion Hd; subst; simpl Object_entries.
  1,2: intros [= <-]; exists (Throw (TypeError "Cannot convert undefined or null to object")), hb;
       simpl; repeat split; auto.
  all: by apply Hloop.
Qed.

(** X19.  On a store in which [previous] and the delta are trees, the store
    model of [messageReducer] returns with the recursion bound of the tree model,
    its outcome stands for the outcome of the tree model, and the store is
    only extended. *)
Theorem heap_messageReducer_refines (h : Heap.heap) hprev prev hdelta hdeltas
    item c cs :
  choices item = c :: cs ->
  Heap.repr h hprev prev ->
  Heap.repr h hdelta (delta c) ->
  exists h' hr,
    Heap.messageReducer (S (Nat.max (depth prev) (depth (delta c)))) h hprev
                        (hdelta :: hdeltas)
    = (h', Some hr)
    /\ h ⊆ h'
    /\ outcome_repr h' hr (messageReducer prev item).
Proof.
  intros Hc Hprev Hdelta.
  destruct (reduce_enough_fuel prev (delta c)) as (r & Hr).
  assert (messageReducer prev item = r) as ->
    by (unfold messageReducer; by rewrite Hc, Hr).
  pose proof (heap_reduce_sim _ h h hprev hdelta prev (delta c) r
                (reflexivity h) Hprev Hdelta Hr)
    as (hr & hb' & Hout & Hb & Hb' & _ & Hres).
  pose proof (heap_reduce_extends
                (S (Nat.max (depth prev) (depth (delta c)))) h hprev hdelta)
    as Hext.
  unfold Heap.messageReducer.
  destruct (Heap.reduce _ h hprev hdelta) as [h' o].
  simpl in Hout, Hb', Hext. subst o.
  exists h', hr. split; [done|]. split; [done|].
  exact (outcome_repr_weaken hb' h' hr r Hb' Hres).
Qed.

(** * Further properties *)

(** ** The merge, field by field *)

Lemma inherited_set_field_ne {A} (acc : list (string * A)) k key w :
  k <> key -> inherited (set_field acc k w) key = inherited acc key.
Proof.
  intros Hne. unfold inherited. rewrite has_own_set_field.
  apply String.eqb_neq in Hne as ->. by rewrite orb_false_r.
Qed.

Lemma inherited_not_own {A} (acc : list (string * A)) key i :
  inherited acc key = Some i -> has_own acc key = false.
Proof. unfold inherited. by destruct (has_own acc key). Qed.

(** The loop adds no own property for a key that is not among the entries. *)
Lemma reduce_entries_has_own rec key entries :
  forall acc fs,
    key ∉ entries.*1 ->
    reduce_entries rec acc entries = Some (Ok fs) ->
    has_own fs key = has_own acc key.
Proof.
  induction entries as [|[k v] rest IH]; intros acc fs Hnot; simpl.
  - by intros [= <-].
  - apply not_elem_of_cons in Hnot as [Hne Hnot]. simpl in Hne.
    assert (forall w, has_own (set_field acc k w) key = has_own acc key)
      as Hset.
    { intros w. rewrite has_own_set_field.
      assert (k <> key) as Hk by congruence.
      apply String.eqb_neq in Hk as ->. by rewrite orb_false_r. }
    destruct (inherited acc k) as [[|]|].
    { by apply IH. }
    { destruct (rec Object_prototype v) as [[w|e]|]; [|done..]. by apply IH. }
    destruct (get_field acc k) as [| | | | s | xs | o].
    1,2: intros H; rewrite (IH _ _ Hnot H); apply Hset.
    1,2,4: by apply IH.
    + destruct v; intros H; rewrite (IH _ _ Hnot H); auto.
    + destruct (rec (JsObject o) v) as [[w|e]|]; [|done..].
      intros H. rewrite (IH _ _ Hnot H). apply Hset.
Qed.

(** What one merge makes of a field that the delta mentions once. *)
Lemma reduce_entries_key rec key value entries :
  forall acc fs,
    NoDup entries.*1 ->
    (key, value) ∈ entries ->
    reduce_entries rec acc entries = Some (Ok fs) ->
    match inherited acc key with
    | Some _ => has_own fs key = false
    | None =>
        match get_field acc key with
        | JsUndefined | JsNull => get_field fs key = value
        | JsString s =>
            match value with
            | JsString t => get_field fs key = JsString (s +:+ t)
            | _ => get_field fs key = JsString s
            end
        | JsObject o =>
            exists merged,
              rec (JsObject o) value = Some (Ok merged)
              /\ get_field fs key = merged
        | other => get_field fs key = other
        end
    end.
Proof.
  induction entries as [|[k v] rest IH]; intros acc fs Hnd Hin.
  - by apply elem_of_nil in Hin.
  - simpl in Hnd. apply NoDup_cons in Hnd as [Hk Hnd].
    apply elem_of_cons in Hin as [[= <- <-]|Hin].
    + simpl.
      destruct (inherited acc key) as [[|]|] eqn:I.
      { intros H. rewrite (reduce_entries_has_own rec key rest _ fs Hk H).
        by eapply inherited_not_own. }
      { destruct (rec Object_prototype value) as [[w|e]|]; [|done..].
        intros H. rewrite (reduce_entries_has_own rec key rest _ fs Hk H).
        by eapply inherited_not_own. }
      destruct (get_field acc key) as [| | b | n | s | xs | o] eqn:E.
      1,2: intros H; rewrite (reduce_entries_other rec key rest _ fs Hk H);
           apply get_set_field_eq.
      1,2,4: intros H; by rewrite (reduce_entries_other rec key rest _ fs Hk H).
      * destruct value; intros H;
          rewrite (reduce_entries_other rec key rest _ fs Hk H);
          rewrite ?get_set_field_eq; done.
      * destruct (rec (JsObject o) value) as [[merged|e]|]; [|done..].
        intros H. exists merged. split; [done|].
        rewrite (reduce_entries_other rec key rest _ fs Hk H).
        apply get_set_field_eq.
    + assert (k <> key) as Hne.
      { intros ->. apply Hk. apply list_elem_of_fmap. by exists (key, value). }
      assert (forall w, get_field (set_field acc k w) key = get_field acc key)
        as Hset by (intros w; by apply get_set_field_ne).
      assert (forall w, inherited (set_field acc k w) key = inherited acc key)
        as Hinh by (intros w; by apply inherited_set_field_ne).
      simpl.
      destruct (inherited acc k) as [[|]|].
      { by apply IH. }
      { destruct (rec Object_prototype v) as [[w|e]|]; [|done..]. by apply IH. }
      destruct (get_field acc k) as [| | b | n | s | xs | o].
      1,2: intros H; rewrite <- (Hset v), <- (Hinh v); by apply IH.
      1,2,4: by apply IH.
      * destruct v; try (by apply IH).
        intros H. rewrite <- (Hset (JsString (s +:+ s0))),
                    <- (Hinh (JsString (s +:+ s0))). by apply IH.
      * destruct (rec (JsObject o) v) as [[w|e]|]; [|done..].
        intros H. rewrite <- (Hset w), <- (Hinh w). by apply IH.
Qed.

(** X1.  A merge leaves every field the delta does not mention as it is in
    [previous]. *)
Theorem messageReducer_untouched_fields previous item c cs key r :
  choices item = c :: cs ->
  key ∉ (own_properties (delta c)).*1 ->
  messageReducer previous item = Ok r ->
  get_prop r key = Ok (get_field (spread previous) key).
Proof.
  intros Hc Hnot Hr.
  apply messageReducer_Ok in Hr as (c' & cs' & fs & Hc' & -> & fuel & Hred).
  rewrite Hc in Hc'. injection Hc' as <- <-.
  simpl. f_equal. by eapply reduce_entries_other.
Qed.

Lemma messageReducer_untouched_fields_witness :
  get_prop (JsObject [("role", JsString "assistant"); ("content", JsString "Hi")])
           "role"
  = Ok (JsString "assistant").
Proof.
  apply (messageReducer_untouched_fields
           (JsObject [("role", JsString "assistant")])
           (content_event "Hi")
           {| delta := JsObject [("content", JsString "Hi")];
              finish_reason := None |} [] "role").
  - reflexivity.
  - simpl. intros H%list_elem_of_singleton. discriminate H.
  - reflexivity.
Defined.

(** X2.  For a merge that returns and a delta whose keys are distinct: a
    field that is null in [previous], or absent and not named like a member
    inherited from [Object.prototype], takes the value the delta carries for
    it, as it is, when the delta has no entry [__proto__] (whose setter
    changes where absent fields are looked up); a string field followed by
    a string is their concatenation; an entry named like an inherited member
    of which [previous] has no own property adds no own property. *)
Theorem messageReducer_sets_or_appends previous item c cs key value r :
  choices item = c :: cs ->
  NoDup (own_properties (delta c)).*1 ->
  (key, value) ∈ own_properties (delta c) ->
  messageReducer previous item = Ok r ->
  ("__proto__" ∉ (own_properties (delta c)).*1 ->
   inherited (spread previous) key = None ->
   is_nullish (get_field (spread previous) key) = true ->
   get_prop r key = Ok value)
  /\ (forall s t,
        get_field (spread previous) key = JsString s ->
        value = JsString t ->
        get_prop r key = Ok (JsString (s +:+ t)))
  /\ (inherited (spread previous) key <> None ->
      has_own (own_properties r) key = false).
Proof.
  intros Hc Hnd Hin Hr.
  apply messageReducer_Ok in Hr as (c' & cs' & fs & Hc' & -> & fuel & Hred).
  rewrite Hc in Hc'. injection Hc' as <- <-.
  pose proof (reduce_entries_key _ _ _ _ _ _ Hnd Hin Hred) as Hkey.
  split; [|split].
  - intros _ Hinh Hnull. rewrite Hinh in Hkey. simpl. f_equal.
    by destruct (get_field (spread previous) key).
  - intros s t Hs ->. simpl. f_equal.
    rewrite (@inherited_set (spread previous) key) in Hkey
      by (by rewrite Hs).
    by rewrite Hs in Hkey.
  - intros Hinh. simpl. by destruct (inherited (spread previous) key).
Qed.

Lemma messageReducer_sets_or_appends_witness :
  get_prop (JsObject [("content", JsString "Hi there")]) "content"
  = Ok (JsString ("Hi" +:+ " there")).
Proof.
  refine (proj1 (proj2 (messageReducer_sets_or_appends
                   (JsObject [("content", JsString "Hi")])
                   (content_event " there")
                   {| delta := JsObject [("content", JsString " there")];
                      finish_reason := None |} [] "content"
                   (JsString " there")
                   (JsObject [("content", JsString "Hi there")]) _ _ _ _))
                "Hi" " there" _ _).
  - reflexivity.
  - simpl. apply NoDup_singleton.
  - simpl. by apply list_elem_of_singleton.
  - reflexivity.
  - reflexivity.
  - reflexivity.
Defined.

(** An entry named [toString] is dropped by a merge into a message that has
    no property of that name, and is appended to an own property. *)
Example messageReducer_inherited_name :
  messageReducer (JsObject [])
                 (delta_event (JsObject [("toString", JsString "abc")]))
  = Ok (JsObject [])
  /\ messageReducer (JsObject [("toString", JsString "x")])
                    (delta_event (JsObject [("toString", JsString "abc")]))
     = Ok (JsObject [("toString", JsString "xabc")]).
Proof. split; reflexivity. Qed.

(** An entry [__proto__] adds no own property to a message that has none of
    that name; merging a null value through it raises as for any object;
    an own property of that name is a field like any other. *)
Example messageReducer_proto_entry :
  messageReducer (JsObject [])
    (delta_event (JsObject [("__proto__", JsObject [("a", JsNumber 1)]);
                            ("b", JsNumber 2)]))
  = Ok (JsObject [("b", JsNumber 2)])
  /\ messageReducer (JsObject [])
       (delta_event (JsObject [("__proto__", JsNull)]))
     = Throw (TypeError "Cannot convert undefined or null to object")
  /\ messageReducer (JsObject [("__proto__", JsNull)])
       (delta_event (JsObject [("__proto__", JsString "x")]))
     = Ok (JsObject [("__proto__", JsString "x")]).
Proof. repeat split. Qed.

(** ** What accumulation never undoes *)

Lemma extends_refl v : extends v v.
Proof.
  destruct v; simpl; try done.
  exists EmptyString. by rewrite string_app_nil_r.
Qed.

Lemma extends_trans a b c : extends a b -> extends b c -> extends a c.
Proof.
  destruct a; simpl; try done.
  - by intros ->.
  - by intros ->.
  - intros [t ->] [u ->]. exists (t +:+ u). by rewrite string_app_assoc.
  - by intros ->.
  - destruct b; done.
Qed.

Lemma reduce_Ok_object fuel acc delta v :
  reduce fuel acc delta = Some (Ok v) -> is_plain_object v = true.
Proof.
  destruct fuel as [|fuel]; [done|]. rewrite reduce_S.
  destruct (Object_entries delta); [|done].
  destruct (reduce_entries _ _ _) as [[fs|e]|]; [|done..].
  by intros [= <-].
Qed.

Lemma reduce_entries_extends rec entries :
  (forall o v w, rec (JsObject o) v = Some (Ok w) -> is_plain_object w = true) ->
  forall acc fs key,
    reduce_entries rec acc entries = Some (Ok fs) ->
    extends (get_field acc key) (get_field fs key).
Proof.
  intros Hrec.
  induction entries as [|[k v] rest IH]; intros acc fs key; simpl.
  - intros [= <-]. apply extends_refl.
  - assert (forall x,
              extends (get_field acc k) x ->
              reduce_entries rec (set_field acc k x) rest = Some (Ok fs) ->
              extends (get_field acc key) (get_field fs key)) as Hset.
    { intros x Hx H. eapply extends_trans; [|by eapply IH].
      destruct (decide (k = key)) as [->|Hne].
      - by rewrite get_set_field_eq.
      - rewrite get_set_field_ne by done. apply extends_refl. }
    destruct (inherited acc k) as [[|]|].
    { by apply IH. }
    { destruct (rec Object_prototype v) as [[w|e]|]; [|done..]. by apply IH. }
    destruct (get_field acc k) as [| | b | n | s | xs | o] eqn:E.
    1,2: by apply Hset.
    1,2,4: by apply IH.
    + destruct v; try (by apply IH). apply Hset. by eexists.
    + destruct (rec (JsObject o) v) as [[w|e]|] eqn:R; [|done..].
      apply Hset. simpl. by eapply Hrec.
Qed.

Lemma messageReducer_extends previous item r key :
  messageReducer previous item = Ok r ->
  extends (get_field (spread previous) key) (get_field (spread r) key).
Proof.
  intros Hr.
  apply messageReducer_Ok in Hr as (c & cs & fs & Hc & -> & fuel & Hred).
  eapply reduce_entries_extends; [|exact Hred].
  intros o v w. apply reduce_Ok_object.
Qed.

(** X3.  Whatever stream is accumulated, a field that is set is never reset:
    a string field only grows at its end, a number, a boolean or an array is
    kept as it is (the first write wins), and an object stays an object. *)
Theorem accumulate_extends events :
  forall message message' key,
    accumulate message events = Ok message' ->
    extends (get_field (spread message) key) (get_field (spread message') key).
Proof.
  induction events as [|event events IH]; intros message message' key; simpl.
  - intros [= <-]. apply extends_refl.
  - destruct (messageReducer message event) as [m1|e] eqn:E; [|done]. simpl.
    intros H. eapply extends_trans; [by eapply messageReducer_extends|].
    by eapply IH.
Qed.

Lemma accumulate_extends_witness :
  extends (JsString "Hi") (JsString "Hi there").
Proof.
  apply (accumulate_extends
           [content_event " th"; delta_event (JsObject [("content", JsNumber 4)]);
            content_event "ere"]
           (JsObject [("content", JsString "Hi")])
           (JsObject [("content", JsString "Hi there")]) "content").
  reflexivity.
Defined.

(** ** How a merge ends *)

(** X4.  A merge either returns an object, or raises one of two type errors:
    the one of reading [delta] of a missing first choice, exactly when the
    event has no choice, or the one of listing the entries of a null or
    undefined delta. *)
Theorem messageReducer_outcomes previous item :
  match messageReducer previous item with
  | Ok r => is_plain_object r = true /\ choices item <> []
  | Throw e =>
      (e = TypeError "Cannot read properties of undefined (reading 'delta')"
       /\ choices item = [])
      \/ (e = TypeError "Cannot convert undefined or null to object"
          /\ choices item <> [])
  end.
Proof.
  unfold messageReducer. destruct (choices item) as [|c cs]; [by left|].
  destruct (reduce_enough_fuel previous (delta c)) as (r & Hr). rewrite Hr.
  destruct r as [v|e].
  - split; [by eapply reduce_Ok_object | done].
  - right. split; [by eapply reduce_raises | done].
Qed.

(** ** The recursion of the merge ends *)

Lemma reduce_entries_mono (rec1 rec2 : JsValue -> JsValue -> option (result JsValue))
    entries :
  (forall a d r, rec1 a d = Some r -> rec2 a d = Some r) ->
  forall acc r,
    reduce_entries rec1 acc entries = Some r ->
    reduce_entries rec2 acc entries = Some r.
Proof.
  intros Hrec. induction entries as [|[k v] rest IH]; intros acc r; simpl; [done|].
  destruct (inherited acc k) as [[|]|]; auto.
  { destruct (rec1 Object_prototype v) as [r1|] eqn:R; [|done].
    rewrite (Hrec _ _ _ R). destruct r1; auto. }
  destruct (get_field acc k) as [| | | | s | xs | o]; auto.
  - destruct v; auto.
  - destruct (rec1 (JsObject o) v) as [r1|] eqn:R; [|done].
    rewrite (Hrec _ _ _ R). destruct r1; auto.
Qed.

Lemma reduce_fuel_mono fuel :
  forall fuel' acc delta r,
    fuel <= fuel' ->
    reduce fuel acc delta = Some r -> reduce fuel' acc delta = Some r.
Proof.
  induction fuel as [|fuel IH]; intros fuel' acc delta r Hle; [done|].
  destruct fuel' as [|fuel']; [lia|]. rewrite !reduce_S.
  destruct (Object_entries delta) as [entries|e]; [|done].
  destruct (reduce_entries (reduce fuel) (spread acc) entries) as [r1|] eqn:R;
    [|done].
  rewrite (reduce_entries_mono (reduce fuel) (reduce fuel') entries
             (fun a d r0 => IH fuel' a d r0 ltac:(lia)) _ _ R).
  done.
Qed.

(** X5.  The recursion of [reduce] ends on all values: there is an outcome
    that every bound above the nesting depth of the two arguments gives. *)
Theorem reduce_terminates acc delta :
  exists r,
    forall fuel,
      Nat.max (depth acc) (depth delta) < fuel -> reduce fuel acc delta = Some r.
Proof.
  destruct (reduce_enough_fuel acc delta) as (r & Hr). exists r.
  intros fuel Hlt. eapply reduce_fuel_mono; [|exact Hr]. lia.
Qed.

(** * Further properties of the drafting cycle *)

(** ** Requests that only update the transcript *)

(** X6.  An [update_only] request is answered without any frame and without
    a completion request: whatever the provider would do, both clients
    fulfil the promise and leave the socket as it is; only the diagnostic on
    the latest user turn is run. *)
Theorem update_only_sends_nothing JSON_parse create request w :
  interaction_type request = "update_only" ->
  DraftResponse JSON_parse create request w = (print_user_message request w, Ok tt)
  /\ LlmOpenai.DraftResponse create request w
     = (print_user_message request w, Ok tt)
  /\ ws (print_user_message request w) = ws w.
Proof.
  intros H. unfold DraftResponse, LlmOpenai.DraftResponse. rewrite H. simpl.
  repeat split. apply print_user_message_ws.
Qed.

Lemma update_only_sends_nothing_witness :
  ws (DraftResponse JsonSubset.JSON_parse (fun _ => hi_there)
        {| req_response_id := 4;
           transcript := [ {| u_role := "user"; u_content := "hello" |} ];
           interaction_type := "update_only" |} initial_state).1
  = [].
Proof.
  destruct (update_only_sends_nothing JsonSubset.JSON_parse (fun _ => hi_there)
              {| req_response_id := 4;
                 transcript := [ {| u_role := "user"; u_content := "hello" |} ];
                 interaction_type := "update_only" |} initial_state
              eq_refl)
    as (H1 & _ & H3).
  rewrite H1. exact H3.
Defined.

(** ** What every frame carries *)

Lemma partial_frames_echo request frames :
  partial_frames request frames ->
  Forall (fun frame => response_id frame = req_response_id request
                       /\ end_call frame = false) frames.
Proof.
  intros H. eapply Forall_impl; [exact H|].
  by intros frame (fragment & -> & _).
Qed.

(** X7.  A call of [DraftResponse] only adds frames to those sent before,
    and every frame it adds carries the [response_id] of the request and
    [end_call = false]; this holds for both clients, on every stream and
    whatever the tool does. *)
Theorem frames_echo_request JSON_parse create request w :
  (exists frames,
     ws (DraftResponse JSON_parse create request w).1 = ws w ++ frames
     /\ Forall (fun frame => response_id frame = req_response_id request
                             /\ end_call frame = false) frames)
  /\ (exists frames,
        ws (LlmOpenai.DraftResponse create request w).1 = ws w ++ frames
        /\ Forall (fun frame => response_id frame = req_response_id request
                                /\ end_call frame = false) frames).
Proof.
  split.
  - unfold DraftResponse.
    destruct (String.eqb (interaction_type request) "update_only").
    { exists []. simpl. by rewrite print_user_message_ws, app_nil_r. }
    destruct (stream_phase create request (print_user_message request w))
      as [ls w1] eqn:E.
    apply stream_phase_ws in E as [(partials & Hws & Hp%partial_frames_echo) _].
    rewrite print_user_message_ws in Hws. unfold finalize.
    destruct (truthy (funcCall ls)).
    + destruct (callFunction JSON_parse (funcCall ls)) as [result|e]; simpl.
      * exists (partials ++ [tool_result_frame request result]).
        rewrite Hws, <- app_assoc. split; [done|].
        apply Forall_app_2; [done|]. by repeat constructor.
      * exists partials. by rewrite Hws.
    + simpl. exists (partials ++ [terminal_frame request]).
      rewrite Hws, <- app_assoc. split; [done|].
      apply Forall_app_2; [done|]. by repeat constructor.
  - unfold LlmOpenai.DraftResponse.
    destruct (String.eqb (interaction_type request) "update_only").
    { exists []. simpl. by rewrite print_user_message_ws, app_nil_r. }
    destruct (create (PreparePrompt LlmOpenai.agentPrompt request))
      as [e|events failure]; simpl.
    + exists [terminal_frame request]. rewrite print_user_message_ws.
      split; [done|]. by repeat constructor.
    + destruct (LlmOpenai.process_events request EmptyString
                  (print_user_message request w) events failure)
        as [[cm w1] err] eqn:E.
      apply plain_process_events_ws
        in E as [(partials & Hws & Hp%partial_frames_echo) _].
      rewrite print_user_message_ws in Hws.
      exists (partials ++ [terminal_frame request]). split.
      * destruct err; simpl; by rewrite Hws, <- app_assoc.
      * apply Forall_app_2; [done|]. by repeat constructor.
Qed.

(** ** The frames of the plain client *)

Lemma concat_fragments_app frs1 frs2 :
  concat_fragments (frs1 ++ frs2)
  = concat_fragments frs1 +:+ concat_fragments frs2.
Proof.
  induction frs1 as [|s frs1 IH]; simpl; [done|].
  by rewrite IH, string_app_assoc.
Qed.

Lemma truthy_get_prop v key : truthy v = true -> exists x, get_prop v key = Ok x.
Proof. destruct v; simpl; try done; eauto. Qed.

Lemma plain_process_event_exact request cm w event :
  exists w',
    LlmOpenai.process_event request cm w event
    = (cm +:+ concat_fragments (map to_string (event_fragment event)), w', None)
    /\ ws w' = ws w ++ map (partial_frame request) (event_fragment event)
    /\ console w' = console w
    /\ lastPrintedUserMessage w' = lastPrintedUserMessage w.
Proof.
  unfold LlmOpenai.process_event, event_fragment.
  destruct (choices event) as [|c cs].
  { exists w. simpl. by rewrite string_app_nil_r, app_nil_r. }
  destruct (truthy (delta c)) eqn:T; simpl.
  2: { exists w. simpl. by rewrite string_app_nil_r, app_nil_r. }
  destruct (truthy_get_prop (delta c) "content" T) as (fragment & ->).
  destruct (truthy fragment); simpl.
  - eexists. split; [by rewrite string_app_nil_r | done].
  - exists w. simpl. by rewrite string_app_nil_r, app_nil_r.
Qed.

Lemma plain_process_events_exact request events failure :
  forall cm w,
    exists w',
      LlmOpenai.process_events request cm w events failure
      = (cm +:+ concat_fragments (map to_string (content_fragments events)),
         w', failure)
      /\ ws w' = ws w ++ map (partial_frame request) (content_fragments events)
      /\ console w' = console w
      /\ lastPrintedUserMessage w' = lastPrintedUserMessage w.
Proof.
  induction events as [|event events IH]; intros cm w.
  - exists w. simpl. by rewrite string_app_nil_r, app_nil_r.
  - cbn [LlmOpenai.process_events].
    destruct (plain_process_event_exact request cm w event)
      as (w1 & -> & Hws1 & Hc1 & Hl1).
    destruct (IH (cm +:+ concat_fragments (map to_string (event_fragment event)))
                 w1) as (w' & -> & Hws & Hc & Hl).
    exists w'. unfold content_fragments. cbn [flat_map].
    rewrite !map_app, concat_fragments_app, string_app_assoc.
    split; [done|]. split; [|split; congruence].
    by rewrite Hws, Hws1, <- app_assoc.
Qed.



(** ** The frames of the function-calling client *)

Lemma process_event_accepts request ls w event m :
  messageReducer (message ls) event = Ok m ->
  exists ls' w',
    process_event request ls w event = (ls', w', None)
    /\ message ls' = m
    /\ ws w' = ws w ++ frames_of_event request event
    /\ completeMessage ls'
       = completeMessage ls +:+ text_of (frames_of_event request event).
Proof.
  intros Hm. unfold process_event, frames_of_event, text_of. rewrite Hm.
  apply messageReducer_Ok in Hm as (c & cs & fs & -> & -> & _).
  destruct (is_function_call (finish_reason c)); simpl.
  { eexists _, _. split; [done|]. simpl.
    by rewrite string_app_nil_r, app_nil_r. }
  destruct (truthy (delta c)) eqn:T; simpl.
  2: { eexists _, _. split; [done|]. simpl.
       by rewrite string_app_nil_r, app_nil_r. }
  destruct (truthy_get_prop (delta c) "content" T) as (fragment & ->).
  destruct (truthy fragment); simpl.
  - eexists _, _. split; [done|]. simpl. by rewrite string_app_nil_r.
  - eexists _, _. split; [done|]. simpl.
    by rewrite string_app_nil_r, app_nil_r.
Qed.

Lemma process_event_rejects request ls w event e :
  messageReducer (message ls) event = Throw e ->
  process_event request ls w event = (ls, w, Some e).
Proof. intros Hm. unfold process_event. by rewrite Hm. Qed.

Lemma text_of_app frames1 frames2 :
  text_of (frames1 ++ frames2) = text_of frames1 +:+ text_of frames2.
Proof. unfold text_of. by rewrite map_app, concat_fragments_app. Qed.

(** The loop on its events: frames for the accepted events, in order. *)
Lemma process_events_exact request events failure :
  forall ls w ls' w' err,
    process_events request ls w events failure = (ls', w', err) ->
    ws w' = ws w ++ flat_map (frames_of_event request)
                             (accepted (message ls) events)
    /\ completeMessage ls'
       = completeMessage ls
         +:+ text_of (flat_map (frames_of_event request)
                               (accepted (message ls) events))
    /\ accumulate (message ls) (accepted (message ls) events)
       = Ok (message ls')
    /\ (accepted (message ls) events = events -> err = failure)
    /\ (accepted (message ls) events <> events -> is_Some err).
Proof.
  induction events as [|event events IH]; intros ls w ls' w' err.
  - simpl. intros [= <- <- <-]. unfold text_of. simpl.
    by rewrite string_app_nil_r, app_nil_r.
  - cbn [process_events accepted].
    destruct (messageReducer (message ls) event) as [m|e] eqn:Hm.
    + destruct (process_event_accepts request ls w event m Hm)
        as (ls1 & w1 & -> & Hm1 & Hws1 & Hcm1).
      intros H. apply IH in H as (Hws & Hcm & Hacc & Hall & Hnot).
      rewrite Hm1 in Hws, Hcm, Hacc, Hall, Hnot.
      cbn [flat_map accumulate]. rewrite Hm. simpl.
      rewrite text_of_app, <- string_app_assoc, <- Hcm1.
      split; [by rewrite Hws, Hws1, <- app_assoc|].
      split; [done|]. split; [done|]. split.
      * intros [= Heq]. by apply Hall.
      * intros Hne. apply Hnot. congruence.
    + rewrite (process_event_rejects request ls w event e Hm).
      intros [= <- <- <-]. unfold text_of. simpl.
      rewrite string_app_nil_r, app_nil_r.
      repeat split; try done; intros; by eexists.
Qed.



Example accepted_stops_at_null_delta :
  accepted (JsObject [])
    [content_event "Hi"; delta_event JsNull; content_event "lost"]
  = [content_event "Hi"].
Proof. reflexivity. Qed.

(** ** The two clients on streams without function call *)

Lemma accepted_all events :
  forall message m,
    accumulate message events = Ok m -> accepted message events = events.
Proof.
  induction events as [|event events IH]; intros message m; simpl; [done|].
  destruct (messageReducer message event) as [m1|e]; [|done]. simpl.
  intros H. by rewrite (IH _ _ H).
Qed.

Lemma frames_of_event_plain request event :
  no_function_call_event event ->
  frames_of_event request event
  = map (partial_frame request) (event_fragment event).
Proof.
  unfold no_function_call_event, frames_of_event, event_fragment.
  destruct (choices event) as [|c cs]; [done|]. intros ->.
  destruct (truthy (delta c)); simpl; [|done].
  destruct (get_prop (delta c) "content") as [fragment|e]; [|done].
  by destruct (truthy fragment).
Qed.

Lemma frames_of_events_plain request events :
  Forall no_function_call_event events ->
  flat_map (frames_of_event request) events
  = map (partial_frame request) (content_fragments events).
Proof.
  induction 1 as [|event events Hev _ IH]; [done|].
  unfold content_fragments. cbn [flat_map].
  by rewrite map_app, IH, frames_of_event_plain.
Qed.

(** X10.  On a stream whose events the accumulator all accepts and of which
    none announces a function call, the function-calling client sends the
    same frames as the plain client and ends like it. *)
Theorem clients_agree_without_function_call JSON_parse request w events failure m :
  accumulate (JsObject []) events = Ok m ->
  Forall no_function_call_event events ->
  let func := DraftResponse JSON_parse (fun _ => StreamOpened events failure)
                request w in
  let plain := LlmOpenai.DraftResponse (fun _ => StreamOpened events failure)
                 request w in
  ws func.1 = ws plain.1 /\ func.2 = plain.2.
Proof.
  intros Hacc Hno. simpl.
  unfold DraftResponse, LlmOpenai.DraftResponse, stream_phase.
  destruct (String.eqb (interaction_type request) "update_only"); [done|].
  destruct (plain_process_events_exact request events failure EmptyString
              (print_user_message request w)) as (w2 & -> & Hws2 & _ & _).
  destruct (process_events request initial_locals
              (print_user_message request w) events failure)
    as [[ls w1] err] eqn:E.
  pose proof (process_events_funcCall _ _ _ _ _ _ _ _ E Hno) as Hfc.
  apply process_events_exact in E as (Hws1 & _ & _ & Herr & _).
  simpl in Hws1, Herr, Hfc.
  rewrite (accepted_all _ _ _ Hacc) in Hws1, Herr.
  rewrite frames_of_events_plain in Hws1 by done.
  rewrite (Herr eq_refl). unfold finalize.
  destruct failure; simpl; rewrite Hfc; simpl; by rewrite Hws1, Hws2.
Qed.

Lemma clients_agree_without_function_call_witness :
  let events := [content_event "Hi"; content_event " there"; finish_event "stop"] in
  let func := DraftResponse JsonSubset.JSON_parse
                (fun _ => StreamOpened events None) book_request initial_state in
  let plain := LlmOpenai.DraftResponse (fun _ => StreamOpened events None)
                 book_request initial_state in
  ws func.1 = ws plain.1 /\ func.2 = plain.2.
Proof.
  apply (clients_agree_without_function_call JsonSubset.JSON_parse book_request
           initial_state
           [content_event "Hi"; content_event " there"; finish_event "stop"]
           None (JsObject [("content", JsString "Hi there")])).
  - reflexivity.
  - repeat (apply Forall_cons_2; [reflexivity|]). apply Forall_nil_2.
Defined.

(** ** The diagnostic on the latest user turn *)

Lemma lastUserMessage_Some request u :
  lastUserMessage request = Some u -> latest_user_turn (transcript request) u.
Proof.
  unfold lastUserMessage, latest_user_turn. intros H.
  pose proof (last_Some_elem_of _ _ H) as Hin.
  apply list_elem_of_filter in Hin as [Hrole _].
  apply last_filter_Some in H as (before & after & -> & Hafter).
  exists before, after. split; [done|]. split; [by apply String.eqb_eq|].
  eapply Forall_impl; [exact Hafter|]. intros turn Hn Hr. apply Hn.
  by apply String.eqb_eq.
Qed.

Lemma lastUserMessage_None request :
  lastUserMessage request = None ->
  Forall (fun turn => u_role turn <> "user") (transcript request).
Proof.
  unfold lastUserMessage. intros H%last_None.
  apply Forall_forall. intros turn Hin Hr.
  eapply filter_nil_not_elem_of; [exact H| |exact Hin].
  by apply String.eqb_eq.
Qed.

Lemma finalize_last JSON_parse request ls w :
  lastPrintedUserMessage (finalize JSON_parse request ls w).1
  = lastPrintedUserMessage w.
Proof.
  unfold finalize. destruct (truthy (funcCall ls)); [|done].
  by destruct (callFunction JSON_parse (funcCall ls)).
Qed.

Lemma print_user_message_last request w :
  lastPrintedUserMessage (print_user_message request w)
  = match lastUserMessage request with
    | Some u => Some (u_content u)
    | None => lastPrintedUserMessage w
    end.
Proof.
  unfold print_user_message. destruct (lastUserMessage request) as [u|]; [|done].
  case_bool_decide as Hd; [done|]. simpl.
  destruct (decide (Some (u_content u) = lastPrintedUserMessage w)); [done|].
  by destruct Hd.
Qed.

Lemma print_user_message_again request w :
  lastPrintedUserMessage w
  = match lastUserMessage request with
    | Some u => Some (u_content u)
    | None => lastPrintedUserMessage w
    end ->
  print_user_message request w = w.
Proof.
  unfold print_user_message. destruct (lastUserMessage request) as [u|]; [|done].
  intros ->. by rewrite bool_decide_false by (intros H; by apply H).
Qed.

Lemma DraftResponse_last JSON_parse create request w :
  lastPrintedUserMessage (DraftResponse JSON_parse create request w).1
  = lastPrintedUserMessage (print_user_message request w).
Proof.
  unfold DraftResponse.
  destruct (String.eqb (interaction_type request) "update_only"); [done|].
  destruct (stream_phase create request (print_user_message request w))
    as [ls w1] eqn:E.
  apply stream_phase_ws in E as [_ <-]. apply finalize_last.
Qed.

(** X11.  After a cycle, whatever its kind and outcome, the client remembers
    the text of the latest user turn of the transcript (what it remembered
    before, if no turn is the user's); the diagnostic of a following cycle
    whose latest user turn has the same text changes nothing, so the text is
    logged once. *)
Theorem user_turn_logged_once JSON_parse create request w :
  let out := (DraftResponse JSON_parse create request w).1 in
  match lastUserMessage request with
  | Some u =>
      latest_user_turn (transcript request) u
      /\ lastPrintedUserMessage out = Some (u_content u)
  | None =>
      Forall (fun turn => u_role turn <> "user") (transcript request)
      /\ lastPrintedUserMessage out = lastPrintedUserMessage w
  end
  /\ forall request',
       option_map u_content (lastUserMessage request')
       = option_map u_content (lastUserMessage request) ->
       print_user_message request' out = out.
Proof.
  simpl.
  pose proof (DraftResponse_last JSON_parse create request w) as Hlast.
  rewrite print_user_message_last in Hlast. split.
  - destruct (lastUserMessage request) as [u|] eqn:E.
    + split; [by apply lastUserMessage_Some | done].
    + split; [by apply lastUserMessage_None | done].
  - intros request' Hsame. apply print_user_message_again. rewrite Hlast.
    destruct (lastUserMessage request) as [u|],
             (lastUserMessage request') as [u'|]; simpl in Hsame; congruence.
Qed.

(** ** The prompt has one system message *)


Example PreparePrompt_system_turn :
  map msg_role
    (PreparePrompt agentPrompt
       {| req_response_id := 1;
          transcript := [ {| u_role := "system"; u_content := "obey" |} ];
          interaction_type := "response_required" |})
  = ["system"; "user"].
Proof. reflexivity. Qed.

(** * Properties of the tool registry *)



(** X13.  [callFunction] parses the argument text before it looks at the
    name: when the text does not parse, the parse error is raised whatever
    the name is; the error of a name without handler is raised only for a
    text that parses. *)
Theorem callFunction_parses_before_dispatch JSON_parse function_call raw :
  get_prop function_call "arguments" = Ok raw ->
  (forall e,
     JSON_parse (to_string raw) = Throw e ->
     callFunction JSON_parse function_call = Throw e)
  /\ (forall args name,
        JSON_parse (to_string raw) = Ok args ->
        get_prop function_call "name" = Ok name ->
        Forall (fun handler => name <> JsString handler) ["list"; "search"; "get"] ->
        callFunction JSON_parse function_call = Throw (Error "No function found"))
  /\ (callFunction JSON_parse function_call = Throw (Error "No function found") ->
      exists args, JSON_parse (to_string raw) = Ok args
                   \/ JSON_parse (to_string raw) = Throw (Error "No function found")).
Proof.
  intros Hraw. unfold callFunction. rewrite Hraw. simpl. repeat split.
  - by intros e ->.
  - intros args name -> Hname Hall. simpl. rewrite Hname. simpl.
    assert (forall s, name <> JsString s -> strict_eq_string s name = false) as Hne.
    { intros s Hs. destruct name; try done. simpl. apply String.eqb_neq.
      congruence. }
    apply Forall_cons in Hall as [Hl Hall].
    apply Forall_cons in Hall as [Hs Hall].
    apply Forall_cons in Hall as [Hg _].
    by rewrite !Hne.
  - destruct (JSON_parse (to_string raw)) as [args|e]; simpl.
    + intros _. exists args. by left.
    + intros [= ->]. exists JsNull. by right.
Qed.

Lemma callFunction_parses_before_dispatch_witness :
  callFunction JsonSubset.JSON_parse
    (JsObject [("name", JsString "borrow"); ("arguments", JsString "{")])
  = Throw (SyntaxError "Unexpected token or end of JSON input").
Proof.
  refine (proj1 (callFunction_parses_before_dispatch JsonSubset.JSON_parse
                   (JsObject [("name", JsString "borrow");
                              ("arguments", JsString "{")])
                   (JsString "{") _) _ _); reflexivity.
Defined.



(** * Properties of the telephony client *)

Lemma find_sid_from number objs :
  forall numberSid,
    foldl (fun numberSid o =>
             if String.eqb (Twilio.phoneNumber o) number
             then Some (Twilio.sid o) else numberSid)
          numberSid objs
    = match last (filter (fun o => Twilio.phoneNumber o = number) objs) with
      | Some o => Some (Twilio.sid o)
      | None => numberSid
      end.
Proof.
  induction objs as [|o objs IH]; intros numberSid; [done|]. simpl.
  rewrite IH. destruct (String.eqb (Twilio.phoneNumber o) number) eqn:E.
  - apply String.eqb_eq in E. rewrite filter_cons_True by done.
    rewrite last_cons. by destruct (last (filter _ objs)).
  - apply String.eqb_neq in E. by rewrite filter_cons_False.
Qed.

(** X15.  [RegisterPhoneAgent] always fulfils its promise.  It lists the
    numbers of the account and then updates at most one of them: when
    several listed numbers equal the given one, the last of them (the loop
    does not stop at a match), with the webhook of the agent and the method
    POST; when none does, it updates nothing and logs that the number could
    not be located. *)
Theorem RegisterPhoneAgent_updates_last_match ngrok list_incoming update_incoming
    number agentId w :
  let out := Twilio.RegisterPhoneAgent ngrok list_incoming update_incoming
               number agentId w in
  out.2 = Ok tt
  /\ Twilio.answers out.1 = Twilio.answers w
  /\ match list_incoming with
     | Throw e =>
         Twilio.requests out.1 = Twilio.requests w ++ [Twilio.ListIncoming]
         /\ last (Twilio.log out.1) = Some (Twilio.LogCallerError e)
     | Ok objs =>
         match last (filter (fun o => Twilio.phoneNumber o = number) objs) with
         | Some o =>
             Twilio.requests out.1
             = Twilio.requests w
               ++ [Twilio.ListIncoming;
                   Twilio.UpdateIncoming (Twilio.sid o)
                     (Twilio.webhook_url ngrok agentId) "POST"]
         | None =>
             Twilio.requests out.1 = Twilio.requests w ++ [Twilio.ListIncoming]
             /\ last (Twilio.log out.1) = Some Twilio.LogUnableToLocate
         end
     end.
Proof.
  simpl. unfold Twilio.RegisterPhoneAgent, Twilio.find_sid.
  destruct list_incoming as [objs|e]; simpl.
  - rewrite find_sid_from.
    destruct (last (filter _ objs)) as [o|]; simpl.
    + destruct (update_incoming _ _ _); simpl; by rewrite <- app_assoc.
    + repeat split. apply last_snoc.
  - repeat split. apply last_snoc.
Qed.

Example RegisterPhoneAgent_two_matches :
  Twilio.requests
    (Twilio.RegisterPhoneAgent (Some "https://x.ngrok.io")
       (Ok [ {| Twilio.phoneNumber := "+1415"; Twilio.sid := "PN1" |};
             {| Twilio.phoneNumber := "+1628"; Twilio.sid := "PN2" |};
             {| Twilio.phoneNumber := "+1415"; Twilio.sid := "PN3" |} ])
       (fun _ _ _ => Ok tt) "+1415" "agent7"
       {| Twilio.requests := []; Twilio.log := []; Twilio.answers := [] |}).1
  = [ Twilio.ListIncoming;
      Twilio.UpdateIncoming "PN3"
        "https://x.ngrok.io/twilio-voice-webhook/agent7" "POST" ].
Proof. reflexivity. Qed.

(** X16.  Of the operations of the client, only [DeletePhoneNumber] lets a
    failure of the service out: its promise is rejected exactly when the
    removal fails.  [CreatePhoneNumber], [CreatePhoneCall], [EndCall] and
    [TransferCall] fulfil their promise whatever the service does, and
    [CreatePhoneNumber] then gives a number only when one was created (for
    an area code without number it issues no creation request). *)
Theorem service_failures_are_contained ngrok list_available create_incoming
    remove_incoming create_call update_call w :
  (forall areaCode agentId,
     let out := Twilio.CreatePhoneNumber ngrok list_available create_incoming
                  areaCode agentId w in
     match out.2 with
     | Ok (Some o) =>
         exists first rest,
           list_available areaCode = Ok (first :: rest)
           /\ create_incoming (Twilio.available_phoneNumber first)
                              (Twilio.webhook_url ngrok agentId) = Ok o
     | Ok None =>
         list_available areaCode = Ok [] ->
         Twilio.requests out.1
         = Twilio.requests w ++ [Twilio.ListAvailable areaCode]
     | Throw _ => False
     end)
  /\ (forall fromNumber toNumber agentId,
        (Twilio.CreatePhoneCall ngrok create_call fromNumber toNumber agentId w).2
        = Ok tt)
  /\ (forall callSid, (Twilio.EndCall update_call callSid w).2 = Ok tt)
  /\ (forall callSid transferTo,
        (Twilio.TransferCall update_call callSid transferTo w).2 = Ok tt)
  /\ (forall phoneNumberKey,
        (Twilio.DeletePhoneNumber remove_incoming phoneNumberKey w).2
        = remove_incoming phoneNumberKey).
Proof.
  repeat split.
  - intros areaCode agentId. simpl. unfold Twilio.CreatePhoneNumber.
    destruct (list_available areaCode) as [[|first rest]|e]; simpl; try done.
    destruct (create_incoming _ _) as [o|e] eqn:C; simpl; [eauto | done].
  - intros. unfold Twilio.CreatePhoneCall. by destruct (create_call _ _ _ _).
  - intros. unfold Twilio.EndCall. by destruct (update_call _ _).
  - intros. unfold Twilio.TransferCall. by destruct (update_call _ _).
Qed.

(** X17.  The voice webhook gives at most one answer to a request.  With
    [AnsweredBy] set it registers no call and gives no answer, and it hangs
    up exactly when the value is ["machine_start"]; without it, it registers
    the call of the agent once and answers with the stream of the registered
    call, with the status 500 when the registration raises, and not at all
    when the registration comes without call detail. *)
Theorem voice_webhook_answers update_call register_call body agent_id w answeredBy :
  get_prop body "AnsweredBy" = Ok answeredBy ->
  let out := Twilio.voice_webhook update_call register_call body agent_id w in
  out.2 = Ok tt
  /\ (exists new, Twilio.answers out.1 = Twilio.answers w ++ new
                  /\ List.length new <= 1)
  /\ (truthy answeredBy = true ->
      Twilio.answers out.1 = Twilio.answers w
      /\ exists callSid,
           get_prop body "CallSid" = Ok callSid
           /\ Twilio.requests out.1
              = Twilio.requests w
                ++ if strict_eq_string "machine_start" answeredBy
                   then [Twilio.UpdateCall callSid
                           "<Response><Hangup></Hangup></Response>"]
                   else [])
  /\ (truthy answeredBy = false ->
      Twilio.requests out.1 = Twilio.requests w ++ [Twilio.RegisterCall agent_id]
      /\ Twilio.answers out.1
         = Twilio.answers w
           ++ match register_call agent_id with
              | Ok (Some detail) =>
                  [Twilio.ConnectStream
                     ("wss://api.retellai.com/audio-websocket/"
                      +:+ Twilio.callId detail)]
              | Ok None => []
              | Throw _ => [Twilio.Status500]
              end).
Proof.
  intros Hans. simpl. unfold Twilio.voice_webhook. rewrite Hans.
  assert (exists callSid, get_prop body "CallSid" = Ok callSid) as [callSid Hsid].
  { destruct body; simpl in *; try done; by eexists. }
  assert (forall answers : list Twilio.Answer,
            exists new, answers = answers ++ new /\ List.length new <= 1) as Hnone.
  { intros answers. exists []. rewrite app_nil_r. split; [done | simpl; lia]. }
  destruct (truthy answeredBy) eqn:T; simpl.
  - destruct (strict_eq_string "machine_start" answeredBy); simpl.
    + rewrite Hsid. unfold Twilio.EndCall.
      destruct (update_call _ _); simpl;
        (split; [done|]); (split; [apply Hnone|]);
        (split; [|done]); intros _; (split; [done|]); by exists callSid.
    + split; [done|]. split; [apply Hnone|].
      split; [|done]. intros _. split; [done|]. exists callSid.
      by rewrite app_nil_r.
  - destruct (register_call agent_id) as [[detail|]|e]; simpl;
      (split; [done|]);
      (split; [first [ apply Hnone
                     | eexists; split; [reflexivity|simpl; lia] ] |]);
      (split; [done|]); intros _; split; try done; by rewrite app_nil_r.
Qed.

Lemma voice_webhook_answers_witness :
  let w := {| Twilio.requests := []; Twilio.log := []; Twilio.answers := [] |} in
  let out := Twilio.voice_webhook (fun _ _ => Ok tt)
               (fun _ => Ok (Some {| Twilio.callId := "c1" |}))
               (JsObject [("CallSid", JsString "CA1")]) "agent7" w in
  Twilio.requests out.1 = Twilio.requests w ++ [Twilio.RegisterCall "agent7"]
  /\ Twilio.answers out.1
     = Twilio.answers w
       ++ [Twilio.ConnectStream "wss://api.retellai.com/audio-websocket/c1"].
Proof.
  refine (proj2 (proj2 (proj2 (voice_webhook_answers (fun _ _ => Ok tt)
                   (fun _ => Ok (Some {| Twilio.callId := "c1" |}))
                   (JsObject [("CallSid", JsString "CA1")]) "agent7"
                   {| Twilio.requests := []; Twilio.log := [];
                      Twilio.answers := [] |}
                   JsUndefined _))) _); reflexivity.
Defined.

(** A request without body: the promise of the handler is rejected and
    nothing is answered. *)
Example voice_webhook_without_body :
  let w := {| Twilio.requests := []; Twilio.log := []; Twilio.answers := [] |} in
  let out := Twilio.voice_webhook (fun _ _ => Ok tt) (fun _ => Ok None)
               JsUndefined "agent7" w in
  out.2 = Throw (TypeError "Cannot read properties of undefined or null")
  /\ Twilio.answers out.1 = [] /\ Twilio.requests out.1 = [].
Proof. repeat split. Qed.

(** * Further witnesses and the registry as a whole *)

Lemma DraftResponse_function_call_stream_witness :
  let out := DraftResponse JsonSubset.JSON_parse (fun _ => list_historical_stream)
               book_request initial_state in
  out.2 = Ok tt
  /\ ws out.1
     = ws initial_state
       ++ [tool_result_frame book_request (Tools.list (JsString "historical"))].
Proof.
  refine (DraftResponse_function_call_stream JsonSubset.JSON_parse
            (fun _ => list_historical_stream) book_request initial_state
            "list" [ "{" +:+ q "genre" ; ": " +:+ q "historical" +:+ "}" ]
            _ _); [discriminate | reflexivity].
Defined.

Lemma heap_messageReducer_refines_witness :
  exists h' hr,
    Heap.messageReducer 3 nested_store (Heap.Ref 0) [Heap.Ref 2] = (h', Some hr)
    /\ nested_store ⊆ h'
    /\ outcome_repr h' hr
         (messageReducer
            (JsObject [("role", JsString "assistant");
                       ("function_call", function_call_value "list" "{")])
            (argument_event "}")).
Proof.
  refine (heap_messageReducer_refines nested_store (Heap.Ref 0)
            (JsObject [("role", JsString "assistant");
                       ("function_call", function_call_value "list" "{")])
            (Heap.Ref 2) [] (argument_event "}")
            {| delta := JsObject [("function_call",
                                   JsObject [("arguments", JsString "}")])];
               finish_reason := None |} [] _ _ _).
  - reflexivity.
  - eapply Heap.repr_object; [reflexivity|].
    repeat constructor.
    eapply Heap.repr_object; [reflexivity|]. repeat constructor.
  - eapply Heap.repr_object; [reflexivity|].
    repeat constructor.
    eapply Heap.repr_object; [reflexivity|]. repeat constructor.
Defined.

